(** * mol-state test transforms, state tree and structure hierarchy manager

    A shallow embedding of
    - [src/mol-plugin-state/manager/structure/hierarchy.ts]
      (module [Hierarchy]): the selection kept by
      [StructureHierarchyManager] and [getComponentGroups];
    - the test transformers [CreateSquare], [CreateCircle], [CaclArea]
      of the mol-state example (module [Shapes]);
    - the state tree, its builder and the reconciliation of cells, which
      the example drives (modules [StateTree], [Builder], [State]); the
      [mol-state] package is not among the sources, so these three modules
      follow the specification.

    Of the space group code of the same file, [SpacegroupCell.isZero]
    is in module [Spacegroup]; the rest of it computes with [Mat4],
    [Vec3] and the tables of [./tables], which are declared elsewhere.

    The properties are in [HierarchyFacts], [TreeFacts], [BuilderFacts],
    [StateFacts], [Scenario] and [Retry], and further ones of the sources
    in [SelectionFacts], [GroupingFacts], [ShapesFacts] and
    [SpacegroupFacts].

    JavaScript numbers are IEEE 754 binary64 values: they are Rocq's
    primitive floats. References ([StateTransform.Ref]) are strings. *)

From Stdlib Require Import Floats.
From stdpp Require Import gmap strings list fin_maps.

Set Warnings "-clear-no-such-hyp".

Abbreviation Ref := string.

(** ** The structure hierarchy manager (hierarchy.ts) *)

Module Hierarchy.

(** The reference types of [./hierarchy-state], as far as the manager reads
    them: every reference has [cell.transform.ref]; a trajectory has
    [models], a model [structures], a structure [components], and a
    component an optional [key]. *)
Record StructureComponentRef := {
  component_ref : Ref;            (* cell.transform.ref *)
  key : option string             (* key?: string *)
}.

Record StructureRef := {
  structure_ref : Ref;
  components : list StructureComponentRef
}.

Record ModelRef := {
  model_ref : Ref;
  model_structures : list StructureRef
}.

Record TrajectoryRef := {
  trajectory_ref : Ref;
  trajectory_models : list ModelRef
}.

(** [HierarchyRef] is the union of the reference types. At run time a
    selection list holds such values whatever type parameter [T] the
    TypeScript signature names: [hierarchy.refs.get(..) as T] is an
    unchecked cast. *)
Inductive HierarchyRef :=
| OfTrajectory (t : TrajectoryRef)
| OfModel (m : ModelRef)
| OfStructure (s : StructureRef)
| OfComponent (c : StructureComponentRef).

(** [r.cell.transform.ref] *)
Definition transform_ref (r : HierarchyRef) : Ref :=
  match r with
  | OfTrajectory t => trajectory_ref t
  | OfModel m => model_ref m
  | OfStructure s => structure_ref s
  | OfComponent c => component_ref c
  end.

Record StructureHierarchy := {
  trajectories : list TrajectoryRef;
  models : list ModelRef;
  structures : list StructureRef;
  refs : gmap string HierarchyRef
}.

(** [StructureHierarchy()] : the empty hierarchy of the constructor. *)
Definition emptyHierarchy : StructureHierarchy :=
  {| trajectories := []; models := []; structures := []; refs := ∅ |}.

Record Selection := {
  sel_trajectories : list HierarchyRef;
  sel_models : list HierarchyRef;
  sel_structures : list HierarchyRef
}.

(** The manager: its component state ([hierarchy], [selection]), the private
    [nextSelection] set and the cached [_currentSelectionSet]. *)
Record Manager := {
  hierarchy : StructureHierarchy;
  selection : Selection;
  nextSelection : gset string;
  _currentSelectionSet : option (gset string)
}.

(** The constructor's state. *)
Definition create : Manager :=
  {| hierarchy := emptyHierarchy;
     selection := {| sel_trajectories := []; sel_models := []; sel_structures := [] |};
     nextSelection := ∅;
     _currentSelectionSet := None |}.

(** [arr.push(x)] *)
Definition push {A} (arr : list A) (x : A) : list A := arr ++ [x].

(** [for (const r of rs) set.add(r.cell.transform.ref)] *)
Definition addRefs (set : gset string) (rs : list HierarchyRef) : gset string :=
  fold_left (λ acc r, acc ∪ {[ transform_ref r ]}) rs set.

(** [get seletionSet()] : the cached set, or the set of the references of
    the three selection lists, which is then cached. *)
Definition seletionSet (m : Manager) : gset string * Manager :=
  match _currentSelectionSet m with
  | Some s => (s, m)
  | None =>
      let s := addRefs (addRefs (addRefs ∅ (sel_trajectories (selection m)))
                          (sel_models (selection m)))
                 (sel_structures (selection m)) in
      (s, {| hierarchy := hierarchy m; selection := selection m;
             nextSelection := nextSelection m;
             _currentSelectionSet := Some s |})
  end.

(** [all.length > 0 ? [all[0]] : []] *)
Definition firstOrEmpty {A} (all : list A) : list A :=
  match all with
  | [] => []
  | x :: _ => [x]
  end.

(** [syncCurrent(hierarchy, current, all)], reading [this.nextSelection]. *)
Definition syncCurrent (nextSel : gset string) (h : StructureHierarchy)
    (current all : list HierarchyRef) : list HierarchyRef :=
  if bool_decide (0 < size nextSel) then
    let newCurrent :=
      fold_left (λ acc r,
        if bool_decide (transform_ref r ∈ nextSel) then push acc r else acc)
        all [] in
    if bool_decide (length newCurrent = 0) then firstOrEmpty all else newCurrent
  else if bool_decide (length current = 0) then firstOrEmpty all
  else
    let newCurrent :=
      fold_left (λ acc c,
        match refs h !! transform_ref c with
        | Some ref => push acc ref
        | None => acc
        end) current [] in
    if bool_decide (length newCurrent = 0) then firstOrEmpty all else newCurrent.

(** The result of [buildStructureHierarchy] (declared in
    [./hierarchy-state]): the new hierarchy and what changed. *)
Record HierarchyUpdate := {
  update_hierarchy : StructureHierarchy;
  added : list HierarchyRef;
  updated : list HierarchyRef;
  removed : list HierarchyRef
}.

(** [sync()], given what [buildStructureHierarchy] returned. With nothing
    added, updated or removed it returns at once and the manager is left as
    it was, its [nextSelection] included. *)
Definition sync (m : Manager) (update : HierarchyUpdate) : Manager :=
  if bool_decide (length (added update) = 0) &&
     bool_decide (length (updated update) = 0) &&
     bool_decide (length (removed update) = 0)
  then m
  else
    let h := update_hierarchy update in
    let trajectories' :=
      syncCurrent (nextSelection m) h (sel_trajectories (selection m))
        (OfTrajectory <$> trajectories h) in
    let models' :=
      syncCurrent (nextSelection m) h (sel_models (selection m))
        (OfModel <$> models h) in
    let structures' :=
      syncCurrent (nextSelection m) h (sel_structures (selection m))
        (OfStructure <$> structures h) in
    {| hierarchy := h;
       selection := {| sel_trajectories := trajectories';
                       sel_models := models';
                       sel_structures := structures' |};
       nextSelection := ∅;                 (* this.nextSelection.clear() *)
       _currentSelectionSet := None |}.

Inductive Action := add | remove.

(** The three arrays [updateCurrent] fills while it walks the hierarchy. *)
Record Picked := {
  p_trajectories : list HierarchyRef;
  p_models : list HierarchyRef;
  p_structures : list HierarchyRef
}.

Definition pickStructure (set : gset string) (acc : Picked) (s : StructureRef) : Picked :=
  if bool_decide (structure_ref s ∈ set)
  then {| p_trajectories := p_trajectories acc; p_models := p_models acc;
          p_structures := push (p_structures acc) (OfStructure s) |}
  else acc.

Definition pickModel (set : gset string) (acc : Picked) (m : ModelRef) : Picked :=
  let acc1 :=
    if bool_decide (model_ref m ∈ set)
    then {| p_trajectories := p_trajectories acc;
            p_models := push (p_models acc) (OfModel m);
            p_structures := p_structures acc |}
    else acc in
  fold_left (pickStructure set) (model_structures m) acc1.

Definition pickTrajectory (set : gset string) (acc : Picked) (t : TrajectoryRef) : Picked :=
  let acc1 :=
    if bool_decide (trajectory_ref t ∈ set)
    then {| p_trajectories := push (p_trajectories acc) (OfTrajectory t);
            p_models := p_models acc;
            p_structures := p_structures acc |}
    else acc in
  fold_left (pickModel set) (trajectory_models t) acc1.

(** [updateCurrent(refs, action)]. [SetUtils.union] and
    [SetUtils.difference] (mol-util/set) build a new set. The fallback to
    the first candidate is commented out in the source, so there is none. *)
Definition updateCurrent (m : Manager) (rs : list HierarchyRef) (action : Action) : Manager :=
  let h := hierarchy m in
  let '(cur, m1) := seletionSet m in
  let given : gset string := list_to_set (transform_ref <$> rs) in
  let set := match action with
             | add => cur ∪ given
             | remove => cur ∖ given
             end in
  let picked :=
    fold_left (pickTrajectory set) (trajectories h)
      {| p_trajectories := []; p_models := []; p_structures := [] |} in
  {| hierarchy := h;
     selection := {| sel_trajectories := p_trajectories picked;
                     sel_models := p_models picked;
                     sel_structures := p_structures picked |};
     nextSelection := nextSelection m1;
     _currentSelectionSet := None |}.

(** The state of the [Map] and of the [groups] array of
    [getComponentGroups]. A group is an array shared by both: the map holds,
    for a key, the position of its array in [groups]. *)
Record Grouping := {
  groups : list (list StructureComponentRef);
  map : gmap string nat
}.

(** One turn of the inner loop of [getComponentGroups]. [!key] holds for
    an undefined key and for the empty string. *)
Definition groupComponent (g : Grouping) (c : StructureComponentRef) : Grouping :=
  match key c with
  | None => g
  | Some k =>
      if bool_decide (k = "") then g
      else
        match map g !! k with
        | Some i =>
            {| groups := alter (λ component, push component c) i (groups g);
               map := map g |}
        | None =>
            {| groups := push (groups g) [c];
               map := <[k := length (groups g)]> (map g) |}
        end
  end.

(** [StructureHierarchyManager.getComponentGroups(structures)] *)
Definition getComponentGroups (structs : list StructureRef)
    : list (list StructureComponentRef) :=
  match structs with
  | [] => []
  | [s] => (λ c, [c]) <$> components s
  | _ =>
      groups
        (fold_left (λ g s, fold_left groupComponent (components s) g) structs
           {| groups := []; map := ∅ |})
  end.

End Hierarchy.

(** ** Transformers (mol-state's [Transformer], as the example uses it) *)

Module Transformer.

(** [Transformer.UpdateResult]: the example returns [Updated]; the other
    two results are those the specification lists. *)
Inductive UpdateResult := Unchanged | Updated | Recreate.

(** A transformer definition as the example writes one: [name], [from],
    [to], [apply({ a, params })] and [update({ a, b, oldParams, newParams })].
    [apply] returns the new object or throws. [update] changes [b] in place
    and returns an [UpdateResult], or throws: here it returns the result
    together with [b] as it is after the call. *)
Record Definition_ (ObjType Obj Params Err : Type) := {
  name : string;
  from : list ObjType;
  to : list ObjType;
  apply : Obj → Params → Err + Obj;
  update : Obj → Obj → Params → Params → Err + (UpdateResult * Obj)
}.

Arguments name {_ _ _ _} _.
Arguments from {_ _ _ _} _.
Arguments to {_ _ _ _} _.
Arguments apply {_ _ _ _} _ _ _.
Arguments update {_ _ _ _} _ _ _ _ _.

End Transformer.

(** ** The example's objects and transformers *)

Module Shapes.
Import Transformer.

Inductive TypeClass := root | shape | prop.

Record TypeInfo := { info_name : string; class : TypeClass }.

(** A label is a string or a template literal with one number in it, e.g.
    [`Square a=${p.a}`], kept as its text and the number: how a number
    prints is the run time's business. *)
Inductive Label :=
| Text (s : string)
| Template (text : string) (n : float).

Record ObjProps := { label : Label }.

Record SquareData := { a : float }.
Record CircleData := { r : float }.
Record AreaData := { volume : float }.

(** The four classes made by [_obj(type, typeInfo)]. *)
Inductive ObjClass := Root | Square | Circle | Area.

#[export] Instance ObjClass_eq_dec : EqDecision ObjClass.
Proof. solve_decision. Defined.

Definition typeName (c : ObjClass) : string :=
  match c with
  | Root => "root"
  | Square => "square"
  | Circle => "circle"
  | Area => "volume"
  end.

Definition typeInfo (c : ObjClass) : TypeInfo :=
  match c with
  | Root => {| info_name := "Root"; class := root |}
  | Square => {| info_name := "Square"; class := shape |}
  | Circle => {| info_name := "Circle"; class := shape |}
  | Area => {| info_name := "Volume"; class := prop |}
  end.

(** An object is an instance of one class, with [props] and the [data] of
    that class: [new Square(props, data)] and so on. *)
Inductive StateObject :=
| NewRoot (props : ObjProps)
| NewSquare (props : ObjProps) (data : SquareData)
| NewCircle (props : ObjProps) (data : CircleData)
| NewArea (props : ObjProps) (data : AreaData).

(** The class an object was constructed with: [o instanceof C] is
    [classOf o = C]. *)
Definition classOf (o : StateObject) : ObjClass :=
  match o with
  | NewRoot _ => Root
  | NewSquare _ _ => Square
  | NewCircle _ _ => Circle
  | NewArea _ _ => Area
  end.

(** The parameters the three transformers are typed with:
    [{ a: number }], [{ r: number }] and [{}]. *)
Inductive Params :=
| SquareParams (p : SquareData)
| CircleParams (p : CircleData)
| NoParams.

(** What a call can throw: the [Error('Unknown object type.')] of
    [CaclArea], and a call with arguments that the TypeScript types of the
    transformer exclude. *)
Inductive Error :=
| UnknownObjectType
| IllTyped.

(** [Math.PI] *)
Definition PI : float := 0x1.921fb54442d18p+1%float.

(** [CreateSquare.apply({ params: p })] *)
Definition CreateSquare_apply (p : SquareData) : StateObject :=
  NewSquare {| label := Template "Square a=" (a p) |} p.

(** [CreateSquare.update({ b, newParams: p })] : [b.props.label] and
    [b.data.a] are assigned. *)
Definition CreateSquare_update (b : ObjProps * SquareData) (p : SquareData)
    : UpdateResult * (ObjProps * SquareData) :=
  (Updated, ({| label := Template "Square a=" (a p) |}, {| a := a p |})).

(** [CreateCircle.apply({ params: p })] *)
Definition CreateCircle_apply (p : CircleData) : StateObject :=
  NewCircle {| label := Template "Circle r=" (r p) |} p.

(** [CreateCircle.update({ b, newParams: p })] *)
Definition CreateCircle_update (b : ObjProps * CircleData) (p : CircleData)
    : UpdateResult * (ObjProps * CircleData) :=
  (Updated, ({| label := Template "Circle r=" (r p) |}, {| r := r p |})).

(** [CaclArea.apply({ a })] *)
Definition CaclArea_apply (obj : StateObject) : Error + StateObject :=
  match obj with
  | NewSquare _ d =>
      inr (NewArea {| label := Text "Area" |} {| volume := (a d * a d)%float |})
  | NewCircle _ d =>
      inr (NewArea {| label := Text "Area" |} {| volume := (r d * r d * PI)%float |})
  | _ => inl UnknownObjectType
  end.

(** [CaclArea.update({ a, b })] : [b.data.volume] is assigned. *)
Definition CaclArea_update (obj : StateObject) (b : ObjProps * AreaData)
    : Error + (UpdateResult * (ObjProps * AreaData)) :=
  match obj with
  | NewSquare _ d => inr (Updated, (b.1, {| volume := (a d * a d)%float |}))
  | NewCircle _ d => inr (Updated, (b.1, {| volume := (r d * r d * PI)%float |}))
  | _ => inl UnknownObjectType
  end.

(** The three transformers registered by [_transform]. *)
Inductive Kind := CreateSquare | CreateCircle | CaclArea.

#[export] Instance Kind_eq_dec : EqDecision Kind.
Proof. solve_decision. Defined.

(** The definition each transformer was made from, over the untyped
    objects and parameters the state passes around; a call outside the
    TypeScript types is [IllTyped]. *)
Definition definition (k : Kind) : Definition_ ObjClass StateObject Params Error :=
  match k with
  | CreateSquare =>
      {| name := "create-square";
         from := [Root];
         to := [Square];
         apply := λ _ p,
           match p with
           | SquareParams p => inr (CreateSquare_apply p)
           | _ => inl IllTyped
           end;
         update := λ _ b _ p,
           match b, p with
           | NewSquare props d, SquareParams p =>
               let '(res, (props', d')) := CreateSquare_update (props, d) p in
               inr (res, NewSquare props' d')
           | _, _ => inl IllTyped
           end |}
  | CreateCircle =>
      {| name := "create-circle";
         from := [Root];
         to := [Square];
         apply := λ _ p,
           match p with
           | CircleParams p => inr (CreateCircle_apply p)
           | _ => inl IllTyped
           end;
         update := λ _ b _ p,
           match b, p with
           | NewCircle props d, CircleParams p =>
               let '(res, (props', d')) := CreateCircle_update (props, d) p in
               inr (res, NewCircle props' d')
           | _, _ => inl IllTyped
           end |}
  | CaclArea =>
      {| name := "calc-area";
         from := [Square; Circle];
         to := [Area];
         apply := λ obj _, CaclArea_apply obj;
         update := λ obj b _ _,
           match b with
           | NewArea props d =>
               match CaclArea_update obj (props, d) with
               | inr (res, (props', d')) => inr (res, NewArea props' d')
               | inl e => inl e
               end
           | _ => inl IllTyped
           end |}
  end.

End Shapes.

(** ** The state tree

    mol-state's [StateTree] is not among the sources: the example and the
    tree view only call it ([tree.transforms.get(ref)],
    [tree.children.get(ref)], [tree.root.ref], [transform.parent],
    [transform.params], [transform.version], [StateTree.toJSON] ...). The
    tree, its builder and the reconciliation below follow the
    specification, over the names those calls show. *)

Module StateTree.

(** [cell.state]: the decoration flags of a node. *)
Record Flags := {
  isCollapsed : bool;
  isHidden : bool;
  isLocked : bool;
  isGhost : bool
}.

Definition noFlags : Flags :=
  {| isCollapsed := false; isHidden := false; isLocked := false; isGhost := false |}.

Section Tree.
Context {Kind Params : Type}.

(** Modelled from the spec: a tree node (StateTransform, section 3): its
    reference, its parent (none for the root), the transform kind (none
    for the root, whose transform is the tree's own), the parameters,
    the version counter and the flags. *)
Record Transform := {
  ref : Ref;
  parent : option Ref;
  transformer : option Kind;
  params : Params;
  version : nat;
  state : Flags
}.

(** Modelled from the spec: the state tree (section 3): the root's
    reference, the nodes by reference and the ordered children of each. *)
Record StateTree := {
  rootRef : Ref;
  transforms : gmap string Transform;
  children : gmap string (list Ref)
}.

(** Modelled from the spec: the tree with only a root. *)
Definition create (root : Ref) (rootParams : Params) : StateTree :=
  {| rootRef := root;
     transforms := {[ root := {| ref := root; parent := None; transformer := None;
                                 params := rootParams; version := 0;
                                 state := noFlags |} ]};
     children := {[ root := [] ]} |}.

(** Modelled from the spec: the queries [parent(ref)] and [children(ref)]
    (section 4.2); both are empty for an unknown reference. *)
Definition parentOf (T : StateTree) (r : Ref) : option Ref :=
  t ← transforms T !! r; parent t.

Definition childrenOf (T : StateTree) (r : Ref) : list Ref :=
  default [] (children T !! r).

(** Modelled from the spec: [subtreeRefs(ref)], the pre-order traversal
    (section 4.2). The recursion is bounded by the number of nodes, which
    bounds the depth of a tree. *)
Fixpoint preorder (fuel : nat) (T : StateTree) (r : Ref) : list Ref :=
  match fuel with
  | 0 => []
  | S n => r :: (childrenOf T r ≫= preorder n T)
  end.

Definition subtreeRefs (T : StateTree) (r : Ref) : list Ref :=
  match transforms T !! r with
  | Some _ => preorder (size (transforms T)) T r
  | None => []
  end.

(** Modelled from the spec: [d] is a descendant of [r] (section 3): a
    child, or the child of a descendant. *)
Inductive descendant (T : StateTree) : Ref → Ref → Prop :=
| descendant_child d r : parentOf T d = Some r → descendant T d r
| descendant_below d q r : parentOf T d = Some q → descendant T q r → descendant T d r.

(** Modelled from the spec: the nodes at depth [k], left to right. *)
Fixpoint level (T : StateTree) (k : nat) : list Ref :=
  match k with
  | 0 => [rootRef T]
  | S k' => level T k' ≫= childrenOf T
  end.

(** Modelled from the spec: the nodes ordered by tree depth, ancestors
    before descendants, children in their order (section 4.3, step 3). *)
Definition byDepth (T : StateTree) : list Ref :=
  seq 0 (size (transforms T)) ≫= level T.

(** Modelled from the spec: the invariant of a state tree (section 3),
    all but "no cycles". One root, which has no parent; every node is
    filed under its own reference; every other node has one parent, in
    whose children it is listed, once; the children map lists nodes of the
    tree only, and has an entry for each. *)
Definition wellFormed (T : StateTree) : Prop :=
  parentOf T (rootRef T) = None ∧
  is_Some (transforms T !! rootRef T) ∧
  map_Forall (λ r t,
    ref t = r ∧
    match parent t with
    | None => r = rootRef T
    | Some p => r ∈ childrenOf T p
    end) (transforms T) ∧
  map_Forall (λ p l,
    is_Some (transforms T !! p) ∧
    NoDup l ∧
    Forall (λ c, parentOf T c = Some p) l) (children T) ∧
  map_Forall (λ r _, is_Some (children T !! r)) (transforms T).

(** Modelled from the spec: the invariant of a state tree (section 3).
    There is no cycle when every node hangs below the root: then the
    listing by depth reaches it. *)
Definition valid (T : StateTree) : Prop :=
  wellFormed T ∧ map_Forall (λ r _, r ∈ byDepth T) (transforms T).

(** Modelled from the spec: the serialized format (section 6), a list of
    node records [{ref, parentRef, kind, params, flags}] and the root's
    reference. It holds no version and no object. *)
Record NodeRecord := {
  rec_ref : Ref;
  rec_parentRef : option Ref;
  rec_kind : option Kind;
  rec_params : Params;
  rec_flags : Flags
}.

Record Serializable := {
  ser_root : Ref;
  ser_nodes : list NodeRecord
}.

Definition toRecord (t : Transform) : NodeRecord :=
  {| rec_ref := ref t; rec_parentRef := parent t; rec_kind := transformer t;
     rec_params := params t; rec_flags := state t |}.

(** Modelled from the spec: a loaded node starts at version 0, as a
    created one (section 6: versions are not part of the format). *)
Definition ofRecord (n : NodeRecord) : Transform :=
  {| ref := rec_ref n; parent := rec_parentRef n; transformer := rec_kind n;
     params := rec_params n; version := 0; state := rec_flags n |}.

(** Modelled from the spec: [toSerializable()], the records of the nodes,
    ordered by depth. *)
Definition toSerializable (T : StateTree) : Serializable :=
  {| ser_root := rootRef T;
     ser_nodes := omap (λ r, toRecord <$> transforms T !! r) (byDepth T) |}.

(** Modelled from the spec: [fromSerializable()]. Every record becomes a
    node; the children of a node are the records that name it as parent,
    in the order of the list. *)
Definition fromSerializable (s : Serializable) : StateTree :=
  {| rootRef := ser_root s;
     transforms := list_to_map ((λ n, (rec_ref n, ofRecord n)) <$> ser_nodes s);
     children :=
       list_to_map
         ((λ n, (rec_ref n,
                 rec_ref <$> filter (λ c, rec_parentRef c = Some (rec_ref n)) (ser_nodes s)))
            <$> ser_nodes s) |}.

(** Modelled from the spec: a tree with its version counters at 0, which
    is all a saved tree keeps of them. *)
Definition resetVersion (t : Transform) : Transform :=
  {| ref := ref t; parent := parent t; transformer := transformer t;
     params := params t; version := 0; state := state t |}.

Definition resetVersions (T : StateTree) : StateTree :=
  {| rootRef := rootRef T;
     transforms := resetVersion <$> transforms T;
     children := children T |}.

End Tree.

Arguments Transform : clear implicits.
Arguments StateTree : clear implicits.
Arguments NodeRecord : clear implicits.
Arguments Serializable : clear implicits.

End StateTree.

(** ** The tree builder *)

Module Builder.
Import StateTree.

(** Modelled from the spec: the structural errors (section 7). *)
Inductive StructuralError :=
| UnknownParent
| UnknownRef
| DuplicateRef
| Cycle
| TypeMismatch.

(** Modelled from the spec: the change summary of a commit (section 4.2):
    the references added, updated (version bumped) and removed (the
    top-most reference of each removed subtree). *)
Record ChangeSummary := {
  added : list Ref;
  updated : list Ref;
  removed : list Ref
}.

Definition noChanges : ChangeSummary := {| added := []; updated := []; removed := [] |}.

Section Builder.
Context {Kind Params ObjType : Type} `{!EqDecision ObjType}.

(** The registry's declared types: the input types a kind accepts ([from])
    and the output types a node's transform declares ([to]; for the root,
    the type of the root object). *)
Variable accepts : Kind → list ObjType.
Variable produces : option Kind → list ObjType.

(** Modelled from the spec: the edits of a builder (section 4.2). *)
Inductive Edit :=
| ApplyTransform (parentRef : Ref) (kind : Kind) (params : Params) (explicitRef : option Ref)
| UpdateParams (r : Ref) (newParams : Params)
| Delete (r : Ref)
| Reparent (r : Ref) (newParentRef : Ref).

(** The working tree of a builder and the changes made so far. *)
Record Builder := {
  tree : StateTree Kind Params;
  changes : ChangeSummary
}.

(** Some declared output type of the parent is an accepted input type. *)
Definition typeCheck (parentKind : option Kind) (kind : Kind) : bool :=
  existsb (λ ty, bool_decide (ty ∈ accepts kind)) (produces parentKind).

(** Modelled from the spec: [applyTransform(parentRef, kind, params,
    explicitRef?)]. Without an explicit reference a reference that the
    working tree does not use is taken. *)
Definition applyTransform (b : Builder) (parentRef : Ref) (kind : Kind)
    (p : Params) (explicitRef : option Ref) : StructuralError + Builder :=
  let T := tree b in
  match transforms T !! parentRef with
  | None => inl UnknownParent
  | Some pt =>
      if negb (typeCheck (transformer pt) kind) then inl TypeMismatch
      else
        let newRef := default (fresh (dom (transforms T))) explicitRef in
        match transforms T !! newRef with
        | Some _ => inl DuplicateRef
        | None =>
            let t := {| ref := newRef; parent := Some parentRef;
                        transformer := Some kind; params := p; version := 0;
                        state := noFlags |} in
            inr {| tree :=
                     {| rootRef := rootRef T;
                        transforms := <[newRef := t]> (transforms T);
                        children :=
                          <[parentRef := childrenOf T parentRef ++ [newRef]]>
                            (<[newRef := []]> (children T)) |};
                   changes :=
                     {| added := added (changes b) ++ [newRef];
                        updated := updated (changes b);
                        removed := removed (changes b) |} |}
        end
  end.

(** Modelled from the spec: [updateParams(ref, newParams)]: [UnknownRef]
    if absent; bumps the node's version. *)
Definition updateParams (b : Builder) (r : Ref) (newParams : Params)
    : StructuralError + Builder :=
  let T := tree b in
  match transforms T !! r with
  | None => inl UnknownRef
  | Some t =>
      let t' := {| ref := ref t; parent := parent t; transformer := transformer t;
                   params := newParams; version := S (version t);
                   state := state t |} in
      inr {| tree := {| rootRef := rootRef T;
                        transforms := <[r := t']> (transforms T);
                        children := children T |};
             changes := {| added := added (changes b);
                           updated := updated (changes b) ++ [r];
                           removed := removed (changes b) |} |}
  end.

(** Modelled from the spec: [delete(ref)] removes the node and its whole
    subtree, and does nothing on the root. A reference the tree does not
    hold has no subtree: nothing is removed either. *)
Definition delete (b : Builder) (r : Ref) : Builder :=
  let T := tree b in
  if bool_decide (r = rootRef T) then b
  else
    match transforms T !! r with
    | None => b
    | Some t =>
        let gone := subtreeRefs T r in
        let kept := filter (λ kv, kv.1 ∉ gone) (children T) in
        {| tree :=
             {| rootRef := rootRef T;
                transforms := filter (λ kv, kv.1 ∉ gone) (transforms T);
                children :=
                  match parent t with
                  | Some p => alter (filter (λ c, c ≠ r)) p kept
                  | None => kept
                  end |};
           changes := {| added := added (changes b);
                         updated := updated (changes b);
                         removed := removed (changes b) ++ [r] |} |}
    end.

(** Modelled from the spec: [reparent(ref, newParentRef)] fails [Cycle] if
    [newParentRef] is [ref] or a descendant of [ref]. Otherwise the node
    moves to the end of the new parent's children, and counts as updated. *)
Definition reparent (b : Builder) (r : Ref) (newParentRef : Ref)
    : StructuralError + Builder :=
  let T := tree b in
  if bool_decide (newParentRef = r) || bool_decide (newParentRef ∈ subtreeRefs T r)
  then inl Cycle
  else
    match transforms T !! r, transforms T !! newParentRef with
    | None, _ => inl UnknownRef
    | _, None => inl UnknownParent
    | Some t, Some _ =>
        match parent t with
        | None => inl Cycle
        | Some old =>
            let t' := {| ref := ref t; parent := Some newParentRef;
                         transformer := transformer t; params := params t;
                         version := S (version t); state := state t |} in
            let detached := alter (filter (λ c, c ≠ r)) old (children T) in
            inr {| tree :=
                     {| rootRef := rootRef T;
                        transforms := <[r := t']> (transforms T);
                        children :=
                          <[newParentRef :=
                              default [] (detached !! newParentRef) ++ [r]]> detached |};
                   changes := {| added := added (changes b);
                                 updated := updated (changes b) ++ [r];
                                 removed := removed (changes b) |} |}
        end
    end.

Definition applyEdit (b : Builder) (e : Edit) : StructuralError + Builder :=
  match e with
  | ApplyTransform parentRef kind p explicitRef => applyTransform b parentRef kind p explicitRef
  | UpdateParams r p => updateParams b r p
  | Delete r => inr (delete b r)
  | Reparent r newParentRef => reparent b r newParentRef
  end.

(** The edits in turn; the first error ends the script. *)
Fixpoint applyEdits (b : Builder) (edits : list Edit) : StructuralError + Builder :=
  match edits with
  | [] => inr b
  | e :: edits' =>
      match applyEdit b e with
      | inl err => inl err
      | inr b' => applyEdits b' edits'
      end
  end.

(** Modelled from the spec: [commit()] materializes the new tree and the
    change summary, or fails with the structural error of an edit. *)
Definition commit (base : StateTree Kind Params) (edits : list Edit)
    : StructuralError + (StateTree Kind Params * ChangeSummary) :=
  match applyEdits {| tree := base; changes := noChanges |} edits with
  | inl err => inl err
  | inr b => inr (tree b, changes b)
  end.

End Builder.

Arguments Edit : clear implicits.
Arguments Builder : clear implicits.

End Builder.

(** ** The state: cells and their reconciliation *)

Module State.
Import StateTree Transformer.

(** Modelled from the spec: the status of a cell (section 3). *)
Inductive Status := pending | processing | ok | error.

#[export] Instance Status_eq_dec : EqDecision Status.
Proof. solve_decision. Defined.

(** Modelled from the spec: the events of the stream (sections 4.3
    and 6). *)
Inductive Event :=
| cellCreated (r : Ref)
| cellRemoved (r : Ref)
| cellUpdated (r : Ref)
| cellStatusChanged (r : Ref).

Section State.
Context {Kind Params ObjType Obj Err : Type} `{!EqDecision ObjType}.

(** The registry: the definition of each kind, and the type of the root
    object. *)
Variable definition : Kind → Definition_ ObjType Obj Params Err.
Variable rootType : ObjType.

Definition accepts (k : Kind) : list ObjType := from (definition k).

Definition produces (k : option Kind) : list ObjType :=
  match k with
  | Some k => to (definition k)
  | None => [rootType]
  end.

(** Modelled from the spec: a cell (section 3): its status, the computed
    object, the error detail and the node version it was computed against.
    [createdIn] stands for the identity of the cell: the number of the
    reconciliation that made it. A reference gets at most one new cell in
    a reconciliation, so two cells of a reference are the same cell when
    they were made in the same one. *)
Record Cell := {
  createdIn : nat;
  status : Status;
  obj : option Obj;
  errorText : option Err;
  sourceVersion : nat
}.

(** Modelled from the spec: the state binds a tree to its cells; [serial]
    numbers its reconciliations. *)
Record State := {
  tree : StateTree Kind Params;
  cells : gmap string Cell;
  serial : nat
}.

(** Modelled from the spec: [State.create(rootObject)]: a tree with only
    the root, whose cell holds the given object. *)
Definition create (root : Ref) (rootObject : Obj) (rootParams : Params) : State :=
  {| tree := StateTree.create root rootParams;
     cells := {[ root := {| createdIn := 0; status := ok; obj := Some rootObject;
                            errorText := None; sourceVersion := 0 |} ]};
     serial := 1 |}.

(** What a reconciliation carries from cell to cell: the cells, the
    references whose object was recomputed and the events so far. *)
Record Run := {
  run_cells : gmap string Cell;
  run_changed : gset string;
  run_events : list Event
}.

(** Modelled from the spec: the short-circuit rule (section 4.3, step 5):
    the cell of a node whose parent cell is not [ok] is [pending], without
    object, and its transform is not attempted. [now] is the number of the
    reconciliation. *)
Definition forcePending (now : nat) (run : Run) (r : Ref) (v : nat) : Run :=
  match run_cells run !! r with
  | Some c =>
      {| run_cells := <[r := {| createdIn := createdIn c; status := pending; obj := None;
                                errorText := None; sourceVersion := sourceVersion c |}]>
                        (run_cells run);
         run_changed := run_changed run;
         run_events := if bool_decide (status c = pending) then run_events run
                       else run_events run ++ [cellStatusChanged r] |}
  | None =>
      {| run_cells := <[r := {| createdIn := now; status := pending; obj := None;
                                errorText := None; sourceVersion := v |}]>
                        (run_cells run);
         run_changed := run_changed run;
         run_events := run_events run ++ [cellStatusChanged r] |}
  end.

(** Modelled from the spec: [apply(parentObject, params)] for a cell that
    has no object (step 4): the cell becomes [ok] with the new object, or
    [error] with the error detail. [id] is the identity of the cell: its
    own if it lives, that of a new cell otherwise. *)
Definition applyCell (run : Run) (r : Ref) (k : Kind) (p : Params) (parentObj : Obj)
    (v : nat) (id : nat) : Run :=
  match apply (definition k) parentObj p with
  | inr o =>
      {| run_cells := <[r := {| createdIn := id; status := ok; obj := Some o;
                                errorText := None; sourceVersion := v |}]>
                        (run_cells run);
         run_changed := run_changed run ∪ {[ r ]};
         run_events := run_events run ++ [cellCreated r] |}
  | inl e =>
      {| run_cells := <[r := {| createdIn := id; status := error; obj := None;
                                errorText := Some e; sourceVersion := v |}]>
                        (run_cells run);
         run_changed := run_changed run;
         run_events := run_events run ++ [cellStatusChanged r] |}
  end.

(** Modelled from the spec: a stale cell is recomputed (step 4): a cell
    that holds an object is updated, and [Unchanged] only refreshes its
    source version, [Updated] replaces the object in the same cell,
    [Recreate] drops the cell and applies anew; a cell without object, or
    a node without cell, is applied. *)
Definition recompute (now : nat) (oldTree : StateTree Kind Params) (run : Run) (r : Ref)
    (k : Kind) (p : Params) (parentObj : Obj) (v : nat) : Run :=
  match run_cells run !! r with
  | Some c =>
      match obj c with
      | Some b =>
          let oldParams := default p (params <$> transforms oldTree !! r) in
          match update (definition k) parentObj b oldParams p with
          | inr (Unchanged, _) =>
              {| run_cells := <[r := {| createdIn := createdIn c; status := ok;
                                        obj := Some b; errorText := None;
                                        sourceVersion := v |}]> (run_cells run);
                 run_changed := run_changed run;
                 run_events := run_events run |}
          | inr (Updated, b') =>
              {| run_cells := <[r := {| createdIn := createdIn c; status := ok;
                                        obj := Some b'; errorText := None;
                                        sourceVersion := v |}]> (run_cells run);
                 run_changed := run_changed run ∪ {[ r ]};
                 run_events := run_events run ++ [cellUpdated r] |}
          | inr (Recreate, _) =>
              applyCell
                {| run_cells := delete r (run_cells run);
                   run_changed := run_changed run;
                   run_events := run_events run ++ [cellRemoved r] |}
                r k p parentObj v now
          | inl e =>
              {| run_cells := <[r := {| createdIn := createdIn c; status := error;
                                        obj := None; errorText := Some e;
                                        sourceVersion := v |}]> (run_cells run);
                 run_changed := run_changed run ∪ {[ r ]};
                 run_events := run_events run ++ [cellStatusChanged r] |}
          end
      | None => applyCell run r k p parentObj v (createdIn c)
      end
  | None => applyCell run r k p parentObj v now
  end.

(** Modelled from the spec: the stale set (step 2): the added and the
    updated references, those whose parent cell was recomputed to a new
    object, and the nodes that have no cell yet. *)
Definition stale (summary : Builder.ChangeSummary) (run : Run) (r p : Ref) : bool :=
  bool_decide (r ∈ Builder.added summary) ||
  bool_decide (r ∈ Builder.updated summary) ||
  bool_decide (p ∈ run_changed run) ||
  match run_cells run !! r with
  | None => true
  | Some _ => false
  end.

(** One node of the new tree, its parent's cell being settled. The root
    has no parent: its cell stays. *)
Definition visit (now : nat) (oldTree newTree : StateTree Kind Params)
    (summary : Builder.ChangeSummary) (run : Run) (r : Ref) : Run :=
  match transforms newTree !! r with
  | Some t =>
      match parent t with
      | Some p =>
          match run_cells run !! p with
          | Some pc =>
              match status pc, obj pc with
              | ok, Some parentObj =>
                  match transformer t with
                  | Some k =>
                      if stale summary run r p
                      then recompute now oldTree run r k (params t) parentObj (version t)
                      else run
                  | None => run
                  end
              | _, _ => forcePending now run r (version t)
              end
          | None => forcePending now run r (version t)
          end
      | None => run
      end
  | None => run
  end.

(** Modelled from the spec: reconciliation (section 4.3). The cells of the
    removed subtrees are dropped, with one event for each removed
    reference; then the nodes of the new tree are visited by depth. *)
Definition reconcile (s : State) (newTree : StateTree Kind Params)
    (summary : Builder.ChangeSummary) : State * list Event :=
  let gone := Builder.removed summary ≫= subtreeRefs (tree s) in
  let kept :=
    filter (λ kv, (fst kv ∉ gone) ∧ is_Some (transforms newTree !! fst kv)) (cells s) in
  let run :=
    fold_left (visit (serial s) (tree s) newTree summary) (byDepth newTree)
      {| run_cells := kept; run_changed := ∅;
         run_events := cellRemoved <$> Builder.removed summary |} in
  ({| tree := newTree; cells := run_cells run; serial := S (serial s) |},
   run_events run).

(** Modelled from the spec: a transaction (section 5): the edits commit
    and the cells are reconciled, or the structural error of an edit
    rejects the whole transaction and the state stays as it was. *)
Definition transaction (s : State) (edits : list (Builder.Edit Kind Params))
    : State * (Builder.StructuralError + list Event) :=
  match Builder.commit accepts produces (tree s) edits with
  | inl err => (s, inl err)
  | inr (newTree, summary) =>
      let '(s', events) := reconcile s newTree summary in
      (s', inr events)
  end.

End State.

Arguments Cell : clear implicits.
Arguments State : clear implicits.
Arguments Run : clear implicits.

End State.

(* ===================================================================== *)
(** ** Space group cells (spacegroup/construction.ts) *)

Module Spacegroup.

(** [Vec3]: the three numbers [v[0]], [v[1]] and [v[2]]. *)
Record Vec3 := { v0 : float; v1 : float; v2 : float }.

Section Cell.
(** [Mat4] is declared in [../../linear-algebra]. *)
Context {Mat4 : Type}.

Record SpacegroupCell := {
  number : float;
  size : Vec3;
  anglesInRadians : Vec3;
  toFractional : Mat4;
  fromFractional : Mat4;
  fractionalBasis : list Vec3
}.

(** [SpacegroupCell.isZero(cell)]. On numbers [===] is the equality of
    IEEE 754. The third test reads [cell.size[1]], as the second does. *)
Definition isZero (cell : SpacegroupCell) : bool :=
  (v0 (size cell) =? 1)%float && (v1 (size cell) =? 1)%float
  && (v1 (size cell) =? 1)%float.

End Cell.

Arguments SpacegroupCell : clear implicits.

End Spacegroup.

(** * Properties *)
(* ===================================================================== *)

Module HierarchyFacts.
Import Hierarchy.

(** A loop that pushes the elements passing a test is a filter. *)
Lemma fold_push_filter {A} (P : A → Prop) `{!∀ x, Decision (P x)} (l acc : list A) :
  fold_left (λ acc r, if bool_decide (P r) then push acc r else acc) l acc
  = acc ++ filter P l.
Proof.
  revert acc. induction l as [|x l IH]; intros acc; simpl.
  - by rewrite app_nil_r.
  - rewrite IH. unfold push. rewrite filter_cons.
    case_bool_decide; case_decide; try done.
    by rewrite <- app_assoc.
Qed.

(** A loop that pushes what a lookup finds is [omap]. *)
Lemma fold_push_omap {A B} (f : A → option B) (l : list A) (acc : list B) :
  fold_left (λ acc c, match f c with Some x => push acc x | None => acc end) l acc
  = acc ++ omap f l.
Proof.
  revert acc. induction l as [|x l IH]; intros acc; simpl.
  - by rewrite app_nil_r.
  - rewrite IH. unfold push. destruct (f x); [by rewrite <- app_assoc | done].
Qed.

(** The selection of the claim's words when a pending set is given: the
    members of the pool whose reference is pending, or else the first
    candidate. *)
Definition pendingOverride (pending : gset string) (all : list HierarchyRef)
    : list HierarchyRef :=
  match filter (λ r, transform_ref r ∈ pending) all with
  | [] => firstOrEmpty all
  | picked => picked
  end.

(** The carry-forward rule in the claim's words: keep what the new
    projection still holds of the previous selection, or else the first
    candidate. *)
Definition carryForward (h : StructureHierarchy) (current all : list HierarchyRef)
    : list HierarchyRef :=
  match omap (λ c, refs h !! transform_ref c) current with
  | [] => firstOrEmpty all
  | kept => kept
  end.

Lemma length_zero_match {A} (l d : list A) :
  (if bool_decide (length l = 0) then d else l)
  = match l with [] => d | x :: l' => x :: l' end.
Proof. by destruct l. Qed.

Lemma syncCurrent_pending ns h current all :
  ns ≠ ∅ → syncCurrent ns h current all = pendingOverride ns all.
Proof.
  intros Hne. unfold syncCurrent, pendingOverride.
  rewrite bool_decide_eq_true_2.
  - rewrite fold_push_filter, app_nil_l. apply length_zero_match.
  - destruct (decide (size ns = 0)) as [Hz|Hz]; [|lia].
    apply size_empty_iff in Hz. by apply leibniz_equiv in Hz.
Qed.

Lemma syncCurrent_no_pending h current all :
  syncCurrent ∅ h current all = carryForward h current all.
Proof.
  unfold syncCurrent, carryForward.
  rewrite bool_decide_eq_false_2 by (rewrite size_empty; lia).
  case_bool_decide as Hc.
  - destruct current; [done | discriminate].
  - rewrite fold_push_omap, app_nil_l. apply length_zero_match.
Qed.

Lemma firstOrEmpty_nonempty {A} (all : list A) : all ≠ [] → firstOrEmpty all ≠ [].
Proof. by destruct all. Qed.

Lemma pendingOverride_nonempty ns all : all ≠ [] → pendingOverride ns all ≠ [].
Proof.
  intros Hall. unfold pendingOverride.
  destruct (filter _ all) eqn:E; [by apply firstOrEmpty_nonempty | done].
Qed.

Lemma carryForward_nonempty h current all : all ≠ [] → carryForward h current all ≠ [].
Proof.
  intros Hall. unfold carryForward.
  destruct (omap _ current) eqn:E; [by apply firstOrEmpty_nonempty | done].
Qed.

Lemma omap_none {A B} (f : A → option B) (l : list A) :
  (∀ x, x ∈ l → f x = None) → omap f l = [].
Proof.
  induction l as [|x l IH]; intros H; simpl; [done|].
  rewrite (H x) by left. apply IH. intros y Hy. apply H. by right.
Qed.

Lemma filter_none {A} (P : A → Prop) `{!∀ x, Decision (P x)} (l : list A) :
  (∀ x, x ∈ l → ¬ P x) → filter P l = [].
Proof.
  induction l as [|x l IH]; intros Hno; [done|].
  rewrite filter_cons. destruct (decide (P x)) as [HP|_].
  - exfalso. by apply (Hno x); [left|].
  - apply IH. intros y Hy. apply Hno. by right.
Qed.

(** C4 (as amended). Resynchronization never leaves a selection empty while
    candidates exist; and when no previously selected reference is found in
    the new projection and the pending set names no candidate, the result is
    exactly the first candidate. *)
Theorem syncCurrent_never_empty (ns : gset string) (h : StructureHierarchy)
    (current all : list HierarchyRef) (c : HierarchyRef) (rest : list HierarchyRef) :
  all = c :: rest →
  syncCurrent ns h current all ≠ [] ∧
  ((∀ x, x ∈ current → refs h !! transform_ref x = None) →
   (∀ x, x ∈ all → transform_ref x ∉ ns) →
   syncCurrent ns h current all = [c]).
Proof.
  intros ->. destruct (decide (ns = ∅)) as [->|Hne].
  - rewrite syncCurrent_no_pending. split.
    + by apply carryForward_nonempty.
    + intros Hcur _. unfold carryForward. by rewrite omap_none.
  - rewrite syncCurrent_pending by done. split.
    + by apply pendingOverride_nonempty.
    + intros _ Hall. unfold pendingOverride. by rewrite filter_none.
Qed.

(** A projection with two models, and a model that is gone from it. *)
Definition model0 : ModelRef := {| model_ref := "m0"; model_structures := [] |}.
Definition model1 : ModelRef := {| model_ref := "m1"; model_structures := [] |}.
Definition model2 : ModelRef := {| model_ref := "m2"; model_structures := [] |}.
Definition twoModels : StructureHierarchy :=
  {| trajectories := []; models := [model1; model2]; structures := [];
     refs := {[ "m1" := OfModel model1; "m2" := OfModel model2 ]} |}.

Lemma syncCurrent_never_empty_witness :
  syncCurrent ∅ twoModels [OfModel model0] (OfModel <$> models twoModels) ≠ [] ∧
  syncCurrent ∅ twoModels [OfModel model0] (OfModel <$> models twoModels) = [OfModel model1].
Proof.
  destruct (syncCurrent_never_empty ∅ twoModels [OfModel model0]
              [OfModel model1; OfModel model2] (OfModel model1) [OfModel model2] eq_refl)
    as [Hne Hfirst].
  split; [exact Hne|]. apply Hfirst.
  - intros x Hx. apply list_elem_of_singleton in Hx. subst x. reflexivity.
  - intros x _. apply not_elem_of_empty.
Defined.

(** C4 as stated fails: with [m2] pending, the previous selection [m0] gone
    and the pool [m1; m2], the result is [m2], not the first candidate. *)
Lemma syncCurrent_first_candidate_counterexample :
  ¬ (∀ (ns : gset string) (h : StructureHierarchy) (current all : list HierarchyRef)
       (c : HierarchyRef) (rest : list HierarchyRef),
       all = c :: rest →
       (∀ x, x ∈ current → refs h !! transform_ref x = None) →
       syncCurrent ns h current all = [c]).
Proof.
  intros Hclaim.
  specialize (Hclaim {[ "m2" ]} twoModels [OfModel model0]
                [OfModel model1; OfModel model2] _ _ eq_refl).
  assert (syncCurrent {[ "m2" ]} twoModels [OfModel model0]
            [OfModel model1; OfModel model2] = [OfModel model2]) as Hrun
    by (vm_compute; reflexivity).
  rewrite Hrun in Hclaim.
  assert ([OfModel model2] = [OfModel model1]) as Heq.
  { apply Hclaim. intros x Hx. apply list_elem_of_singleton in Hx. subst x. reflexivity. }
  discriminate Heq.
Qed.

(** [sync] resynchronizes when the update reports a change. *)
Definition hasChanges (u : HierarchyUpdate) : Prop :=
  added u ≠ [] ∨ updated u ≠ [] ∨ removed u ≠ [].

Lemma sync_changes m u :
  hasChanges u →
  sync m u =
    let h := update_hierarchy u in
    {| hierarchy := h;
       selection :=
         {| sel_trajectories :=
              syncCurrent (nextSelection m) h (sel_trajectories (selection m))
                (OfTrajectory <$> trajectories h);
            sel_models :=
              syncCurrent (nextSelection m) h (sel_models (selection m))
                (OfModel <$> models h);
            sel_structures :=
              syncCurrent (nextSelection m) h (sel_structures (selection m))
                (OfStructure <$> structures h) |};
       nextSelection := ∅;
       _currentSelectionSet := None |}.
Proof.
  intros Hch. unfold sync.
  destruct (added u) eqn:Ea, (updated u) eqn:Eu, (removed u) eqn:Er; try reflexivity.
  exfalso. unfold hasChanges in Hch. rewrite Ea, Eu, Er in Hch.
  destruct Hch as [?|[?|?]]; done.
Qed.

(** Without a change [sync] returns early: the pending set stays. *)
Lemma sync_no_changes m u : ¬ hasChanges u → sync m u = m.
Proof.
  intros Hno. unfold sync, hasChanges in *.
  destruct (added u), (updated u), (removed u); try reflexivity;
    exfalso; apply Hno; auto.
Qed.

(** *** The pending selection, in the claim's words

    These definitions say what the claim says without calling anything
    of the code: the first candidate of a pool is its first member. *)
Definition firstCandidate (all : list HierarchyRef) : list HierarchyRef :=
  take 1 all.

(** The projection members whose reference is pending, or the first
    candidate if no member is. *)
Definition pendingChoice (pending : gset string) (all : list HierarchyRef)
    : list HierarchyRef :=
  let named := filter (λ r, transform_ref r ∈ pending) all in
  if decide (length named = 0) then firstCandidate all else named.

(** The carry-forward of a previous selection: what the new projection
    files under the previously selected references, or the first
    candidate if it files none. *)
Definition carriedForward (h : StructureHierarchy) (current all : list HierarchyRef)
    : list HierarchyRef :=
  let kept := omap (λ c, refs h !! transform_ref c) current in
  if decide (length kept = 0) then firstCandidate all else kept.

Lemma firstOrEmpty_first (all : list HierarchyRef) : firstOrEmpty all = firstCandidate all.
Proof. by destruct all. Qed.

Lemma pendingOverride_choice ns all : pendingOverride ns all = pendingChoice ns all.
Proof.
  unfold pendingOverride, pendingChoice. simpl.
  destruct (filter _ all); simpl; [apply firstOrEmpty_first|done].
Qed.

Lemma carryForward_carried h current all :
  carryForward h current all = carriedForward h current all.
Proof.
  unfold carryForward, carriedForward. simpl.
  destruct (omap _ current); simpl; [apply firstOrEmpty_first|done].
Qed.

(** C5 (as amended). A [sync()] whose update reports nothing added,
    updated or removed returns at once: it neither applies nor clears the
    pending set. At a [sync()] whose update reports a change, a non-empty
    pending set decides the three selections, whatever the previous
    selection was: each is the members of its pool whose reference is
    pending, or the first candidate of the pool if none is; the pending
    set is empty afterwards, and the next resynchronization carries the
    selection forward. *)
Theorem sync_pending_override (m : Manager) (u : HierarchyUpdate) :
  nextSelection m ≠ ∅ →
  (¬ hasChanges u → sync m u = m) ∧
  (hasChanges u →
   let h := update_hierarchy u in
   let m' := sync m u in
   sel_trajectories (selection m')
     = pendingChoice (nextSelection m) (OfTrajectory <$> trajectories h) ∧
   sel_models (selection m')
     = pendingChoice (nextSelection m) (OfModel <$> models h) ∧
   sel_structures (selection m')
     = pendingChoice (nextSelection m) (OfStructure <$> structures h) ∧
   nextSelection m' = ∅ ∧
   ∀ u2, hasChanges u2 →
     let h2 := update_hierarchy u2 in
     selection (sync m' u2) =
       {| sel_trajectories :=
            carriedForward h2 (sel_trajectories (selection m'))
              (OfTrajectory <$> trajectories h2);
          sel_models :=
            carriedForward h2 (sel_models (selection m')) (OfModel <$> models h2);
          sel_structures :=
            carriedForward h2 (sel_structures (selection m'))
              (OfStructure <$> structures h2) |}).
Proof.
  intros Hpending. split; [apply sync_no_changes|].
  intros Hch h m'. subst h m'.
  rewrite (sync_changes m u Hch). cbn.
  rewrite !syncCurrent_pending, !pendingOverride_choice by done.
  repeat split.
  intros u2 Hch2. rewrite (sync_changes _ u2 Hch2). cbn.
  by rewrite !syncCurrent_no_pending, !carryForward_carried.
Qed.

(** The manager after [createModels] marked [m2] while [m0] was selected;
    the update that replaces [m0] by [m1] and [m2]; an update that loads a
    trajectory with these two models and a structure; and an update that
    reports nothing. *)
Definition pendingManager : Manager :=
  {| hierarchy := emptyHierarchy;
     selection := {| sel_trajectories := []; sel_models := [OfModel model0];
                     sel_structures := [] |};
     nextSelection := {[ "m2" ]};
     _currentSelectionSet := None |}.

Definition twoModelsUpdate : HierarchyUpdate :=
  {| update_hierarchy := twoModels;
     added := [OfModel model1; OfModel model2];
     updated := [];
     removed := [OfModel model0] |}.

Definition trajectory0 : TrajectoryRef :=
  {| trajectory_ref := "t0"; trajectory_models := [model1; model2] |}.
Definition structure0 : StructureRef := {| structure_ref := "s0"; components := [] |}.

Definition trajectoryUpdate : HierarchyUpdate :=
  {| update_hierarchy :=
       {| trajectories := [trajectory0]; models := [model1; model2];
          structures := [structure0];
          refs := {[ "t0" := OfTrajectory trajectory0; "m1" := OfModel model1;
                     "m2" := OfModel model2; "s0" := OfStructure structure0 ]} |};
     added := [OfTrajectory trajectory0; OfModel model1; OfModel model2;
               OfStructure structure0];
     updated := [];
     removed := [OfModel model0] |}.

Definition idleUpdate : HierarchyUpdate :=
  {| update_hierarchy := twoModels; added := []; updated := []; removed := [] |}.

(** With [m2] pending: the models are [m2], the pending member of the
    pool; no trajectory and no structure is pending, so the first
    candidate of each pool is taken; the pending set is empty afterwards
    and the same update again keeps the selection. An update that reports
    nothing leaves the manager, its pending set included. *)
Lemma sync_pending_override_witness :
  sel_trajectories (selection (sync pendingManager trajectoryUpdate))
    = [OfTrajectory trajectory0] ∧
  sel_models (selection (sync pendingManager trajectoryUpdate)) = [OfModel model2] ∧
  sel_structures (selection (sync pendingManager trajectoryUpdate))
    = [OfStructure structure0] ∧
  nextSelection (sync pendingManager trajectoryUpdate) = ∅ ∧
  sel_models (selection (sync (sync pendingManager trajectoryUpdate) trajectoryUpdate))
    = [OfModel model2] ∧
  sync pendingManager idleUpdate = pendingManager.
Proof.
  assert (nextSelection pendingManager ≠ ∅) as Hp.
  { cbn [pendingManager nextSelection]. set_solver. }
  assert (hasChanges trajectoryUpdate) as Hc by (left; discriminate).
  assert (¬ hasChanges idleUpdate) as Hidle by (intros [H|[H|H]]; by apply H).
  destruct (sync_pending_override pendingManager idleUpdate Hp) as [Hsame _].
  destruct (sync_pending_override pendingManager trajectoryUpdate Hp) as [_ Hsync].
  destruct (Hsync Hc) as (Ht & Hm & Hs & Hn & Hnext).
  split; [rewrite Ht; reflexivity|].
  split; [rewrite Hm; reflexivity|].
  split; [rewrite Hs; reflexivity|].
  split; [exact Hn|].
  split; [|exact (Hsame Hidle)].
  rewrite (Hnext trajectoryUpdate Hc). cbn [sel_models]. rewrite Hm. reflexivity.
Defined.

(** C5 as stated fails: a [sync()] whose update reports no change leaves
    [m2] pending and the models [m0] selected; the pending set is neither
    applied nor cleared by that cycle. *)
Lemma sync_pending_idle_counterexample :
  ¬ (∀ (m : Manager) (u : HierarchyUpdate),
       nextSelection m ≠ ∅ →
       let h := update_hierarchy u in
       let m' := sync m u in
       sel_trajectories (selection m')
         = pendingChoice (nextSelection m) (OfTrajectory <$> trajectories h) ∧
       sel_models (selection m')
         = pendingChoice (nextSelection m) (OfModel <$> models h) ∧
       sel_structures (selection m')
         = pendingChoice (nextSelection m) (OfStructure <$> structures h) ∧
       nextSelection m' = ∅).
Proof.
  intros Hclaim.
  assert (nextSelection pendingManager ≠ ∅) as Hp.
  { cbn [pendingManager nextSelection]. set_solver. }
  destruct (Hclaim pendingManager idleUpdate Hp) as (_ & Hmodels & _ & Hcleared).
  assert (sel_models (selection (sync pendingManager idleUpdate)) = [OfModel model0])
    as Hkept by reflexivity.
  assert (pendingChoice (nextSelection pendingManager) (OfModel <$> models twoModels)
          = [OfModel model2]) as Hchoice by (vm_compute; reflexivity).
  cbn [update_hierarchy idleUpdate] in Hmodels.
  rewrite Hkept, Hchoice in Hmodels. discriminate Hmodels.
Qed.

(** The references of the three selection lists. *)
Definition selectedRefs (s : Selection) : gset string :=
  list_to_set (transform_ref <$> (sel_trajectories s ++ sel_models s ++ sel_structures s)).

(** The cache, when filled, holds the references of the selection. *)
Definition cacheOk (m : Manager) : Prop :=
  ∀ s, _currentSelectionSet m = Some s → s = selectedRefs (selection m).

Lemma addRefs_eq (set : gset string) rs :
  addRefs set rs = set ∪ list_to_set (transform_ref <$> rs).
Proof.
  revert set. induction rs as [|r rs IH]; intros set; simpl.
  - set_solver.
  - unfold addRefs in *. simpl. rewrite IH. set_solver.
Qed.

Lemma seletionSet_eq m : cacheOk m → (seletionSet m).1 = selectedRefs (selection m).
Proof.
  intros Hok. unfold seletionSet.
  destruct (_currentSelectionSet m) as [s|] eqn:E; simpl.
  - by apply Hok.
  - rewrite !addRefs_eq. unfold selectedRefs. rewrite !fmap_app, !list_to_set_app_L.
    set_solver.
Qed.

Lemma seletionSet_nextSelection m : nextSelection (seletionSet m).2 = nextSelection m.
Proof. unfold seletionSet. by destruct (_currentSelectionSet m). Qed.

(** The cache stays right: the constructor, [sync], [updateCurrent] and the
    getter itself keep [cacheOk]. *)
Lemma cacheOk_create : cacheOk create.
Proof. intros s Hs. discriminate Hs. Qed.

Lemma cacheOk_sync m u : cacheOk m → cacheOk (sync m u).
Proof.
  intros Hok. unfold sync.
  destruct (_ && _); [done|]. intros s Hs. discriminate Hs.
Qed.

Lemma cacheOk_updateCurrent m rs a : cacheOk (updateCurrent m rs a).
Proof.
  unfold updateCurrent. destruct (seletionSet m). intros s Hs. discriminate Hs.
Qed.

Lemma cacheOk_seletionSet m : cacheOk m → cacheOk (seletionSet m).2.
Proof.
  intros Hok. unfold seletionSet.
  destruct (_currentSelectionSet m) as [s|] eqn:E; simpl; [done|].
  intros s Hs. simpl in Hs. injection Hs as <-.
  rewrite !addRefs_eq. unfold selectedRefs. simpl.
  rewrite !fmap_app, !list_to_set_app_L. set_solver.
Qed.

Lemma pickStructure_empty acc ss : fold_left (pickStructure ∅) ss acc = acc.
Proof.
  revert acc. induction ss as [|x ss IH]; intros acc; simpl; [done|].
  unfold pickStructure at 2. rewrite bool_decide_eq_false_2 by set_solver. apply IH.
Qed.

Lemma pickModel_empty acc ms : fold_left (pickModel ∅) ms acc = acc.
Proof.
  revert acc. induction ms as [|x ms IH]; intros acc; simpl; [done|].
  unfold pickModel at 2. rewrite bool_decide_eq_false_2 by set_solver.
  rewrite pickStructure_empty. apply IH.
Qed.

Lemma pickTrajectory_empty acc ts : fold_left (pickTrajectory ∅) ts acc = acc.
Proof.
  revert acc. induction ts as [|x ts IH]; intros acc; simpl; [done|].
  unfold pickTrajectory at 2. rewrite bool_decide_eq_false_2 by set_solver.
  rewrite pickModel_empty. apply IH.
Qed.

(** A hierarchy with one trajectory, its model and the model's structure,
    as [buildStructureHierarchy] reports it when they are created. *)
Definition structure1 : StructureRef := {| structure_ref := "s"; components := [] |}.
Definition modelOf1 : ModelRef := {| model_ref := "m"; model_structures := [structure1] |}.
Definition trajectory1 : TrajectoryRef :=
  {| trajectory_ref := "t"; trajectory_models := [modelOf1] |}.
Definition oneOfEach : HierarchyUpdate :=
  {| update_hierarchy :=
       {| trajectories := [trajectory1]; models := [modelOf1]; structures := [structure1];
          refs := {[ "t" := OfTrajectory trajectory1; "m" := OfModel modelOf1;
                     "s" := OfStructure structure1 ]} |};
     added := [OfTrajectory trajectory1; OfModel modelOf1; OfStructure structure1];
     updated := [];
     removed := [] |}.

Definition noSelection : Selection :=
  {| sel_trajectories := []; sel_models := []; sel_structures := [] |}.

(** C8. [updateCurrent(refs, 'remove')] with [refs] covering the whole
    selection leaves the three selection lists empty, whatever the
    hierarchy holds: so does it in the manager that [sync] filled from
    a hierarchy with one trajectory, model and structure, where a
    resynchronization selects the first candidates again. *)
Theorem updateCurrent_remove_all :
  (∀ (m : Manager) (rs : list HierarchyRef),
     cacheOk m →
     (∀ x, x ∈ sel_trajectories (selection m) ++ sel_models (selection m)
                 ++ sel_structures (selection m) →
           transform_ref x ∈ transform_ref <$> rs) →
     selection (updateCurrent m rs remove) = noSelection) ∧
  (let m := sync create oneOfEach in
   let rs := [OfTrajectory trajectory1; OfModel modelOf1; OfStructure structure1] in
   trajectories (hierarchy m) = [trajectory1] ∧
   models (hierarchy m) = [modelOf1] ∧
   structures (hierarchy m) = [structure1] ∧
   selection m = {| sel_trajectories := [OfTrajectory trajectory1];
                    sel_models := [OfModel modelOf1];
                    sel_structures := [OfStructure structure1] |} ∧
   selection (updateCurrent m rs remove) = noSelection ∧
   selection (sync (updateCurrent m rs remove) oneOfEach) = selection m).
Proof.
  split.
  - intros m rs Hok Hcover. unfold updateCurrent.
    pose proof (seletionSet_eq m Hok) as Hset.
    destruct (seletionSet m) as [cur m1]. simpl in Hset. subst cur.
    replace (selectedRefs (selection m) ∖ list_to_set (transform_ref <$> rs))
      with (∅ : gset string).
    + by rewrite pickTrajectory_empty.
    + symmetry. apply leibniz_equiv. apply set_equiv. intros r.
      rewrite elem_of_difference. unfold selectedRefs.
      rewrite !elem_of_list_to_set. split; [|set_solver].
      intros [Hin Hnot]. exfalso. apply Hnot.
      apply list_elem_of_fmap in Hin as (x & -> & Hx). by apply Hcover.
  - vm_compute. repeat split.
Qed.

(** The key a component is grouped under: none when [!key] holds. *)
Definition groupKey (c : StructureComponentRef) : option string :=
  match key c with
  | Some k => if bool_decide (k = "") then None else Some k
  | None => None
  end.

(** The distinct elements of a list, in the order of their first occurrence. *)
Fixpoint firstOccurrences (l : list string) : list string :=
  match l with
  | [] => []
  | x :: l' => x :: filter (λ y, y ≠ x) (firstOccurrences l')
  end.

(** Grouping in the claim's words: one group per key, in the order the keys
    are first met, each holding the components of that key in order;
    components without a key are in no group. *)
Definition groupsByKey (cs : list StructureComponentRef) : list (list StructureComponentRef) :=
  (λ k, filter (λ c, groupKey c = Some k) cs) <$> firstOccurrences (omap groupKey cs).

Lemma elem_of_firstOccurrences l x : x ∈ firstOccurrences l ↔ x ∈ l.
Proof.
  induction l as [|y l IH]; simpl; [done|].
  rewrite !elem_of_cons, list_elem_of_filter, IH.
  destruct (decide (x = y)); naive_solver.
Qed.

Lemma NoDup_firstOccurrences l : NoDup (firstOccurrences l).
Proof.
  induction l as [|y l IH]; simpl; [constructor|].
  constructor.
  - rewrite list_elem_of_filter. naive_solver.
  - by apply NoDup_filter.
Qed.

Lemma firstOccurrences_snoc l x :
  firstOccurrences (l ++ [x])
  = if decide (x ∈ l) then firstOccurrences l else firstOccurrences l ++ [x].
Proof.
  induction l as [|y l IH].
  - simpl. destruct (decide (x ∈ [])) as [Hin|_]; [|done].
    by apply not_elem_of_nil in Hin.
  - cbn [app firstOccurrences]. rewrite IH.
    destruct (decide (x ∈ l)) as [Hin|Hnin].
    + destruct (decide (x ∈ y :: l)) as [_|Hn]; [done|].
      exfalso. apply Hn. by right.
    + rewrite filter_app, filter_cons, filter_nil.
      destruct (decide (x = y)) as [->|Hxy].
      * destruct (decide (y ∈ y :: l)) as [_|Hn]; [|exfalso; apply Hn; left].
        destruct (decide (y ≠ y)); [done|]. by rewrite app_nil_r.
      * destruct (decide (x ∈ y :: l)) as [Hin|_].
        { apply elem_of_cons in Hin as [?|?]; done. }
        destruct (decide (x ≠ y)); done.
Qed.

Lemma groupComponent_eq g c :
  groupComponent g c =
    match groupKey c with
    | None => g
    | Some k =>
        match map g !! k with
        | Some i => {| groups := alter (λ component, push component c) i (groups g);
                       map := map g |}
        | None => {| groups := push (groups g) [c];
                     map := <[k := length (groups g)]> (map g) |}
        end
    end.
Proof.
  unfold groupComponent, groupKey. destruct (key c) as [k|]; [|done].
  by case_bool_decide.
Qed.

(** What the [Map] and the [groups] array hold once the components [cs]
    went through the loop. *)
Definition grouped (cs : list StructureComponentRef) (g : Grouping) : Prop :=
  groups g = groupsByKey cs ∧
  ∀ k i, map g !! k = Some i ↔ firstOccurrences (omap groupKey cs) !! i = Some k.

Lemma grouped_nil : grouped [] {| groups := []; map := ∅ |}.
Proof. split; [done|]. intros k i. simpl. by rewrite lookup_empty, lookup_nil. Qed.

Lemma filter_snoc_key cs c k :
  filter (λ c', groupKey c' = Some k) (cs ++ [c])
  = filter (λ c', groupKey c' = Some k) cs ++ (if decide (groupKey c = Some k) then [c] else []).
Proof. rewrite filter_app, filter_cons, filter_nil. by destruct (decide _). Qed.

Lemma grouped_step cs g c : grouped cs g → grouped (cs ++ [c]) (groupComponent g c).
Proof.
  intros [Hg Hm]. rewrite groupComponent_eq. unfold grouped, groupsByKey in *.
  rewrite omap_app. simpl. destruct (groupKey c) as [k|] eqn:Ek; simpl.
  - rewrite firstOccurrences_snoc.
    set (ks := firstOccurrences (omap groupKey cs)) in *.
    destruct (map g !! k) as [i|] eqn:Ei.
    + apply Hm in Ei as Hi.
      assert (k ∈ omap groupKey cs) as Hin.
      { apply elem_of_firstOccurrences. by eapply list_elem_of_lookup_2. }
      rewrite decide_True by done. split; [|done]. simpl. rewrite Hg.
      apply list_eq. intros j. rewrite !list_lookup_fmap.
      destruct (decide (i = j)) as [<-|Hij].
      * rewrite list_lookup_alter_eq, list_lookup_fmap, Hi. simpl.
        rewrite filter_snoc_key, Ek. by rewrite decide_True.
      * rewrite list_lookup_alter_ne by done. rewrite list_lookup_fmap.
        destruct (ks !! j) as [k'|] eqn:Ej; simpl; [|done].
        rewrite filter_snoc_key, Ek. rewrite decide_False; [by rewrite app_nil_r|].
        intros [= ->]. apply Hij.
        eapply NoDup_lookup; [apply NoDup_firstOccurrences|exact Hi|exact Ej].
    + assert (k ∉ omap groupKey cs) as Hnin.
      { intros Hin. apply elem_of_firstOccurrences in Hin.
        apply list_elem_of_lookup_1 in Hin as [i Hi]. apply Hm in Hi. congruence. }
      rewrite decide_False by done. split; simpl.
      * rewrite Hg, fmap_app. unfold push. simpl. f_equal.
        -- apply list_fmap_ext. intros j k' Hk'.
           rewrite filter_snoc_key, Ek. rewrite decide_False; [by rewrite app_nil_r|].
           intros [= ->]. apply Hnin. apply elem_of_firstOccurrences.
           by eapply list_elem_of_lookup_2.
        -- rewrite filter_snoc_key, Ek. rewrite decide_True by done.
           rewrite filter_none; [done|].
           intros c' Hc' Hk. apply Hnin. apply list_elem_of_omap. eauto.
      * intros k' j. rewrite Hg, length_fmap.
        destruct (decide (k = k')) as [<-|Hkk].
        -- rewrite lookup_insert_eq. split.
           ++ intros [= <-]. by rewrite lookup_app_r, Nat.sub_diag.
           ++ intros Hj. f_equal.
              destruct (decide (j < length ks)) as [Hlt|Hge].
              ** rewrite lookup_app_l in Hj by done.
                 exfalso. apply Hnin. apply elem_of_firstOccurrences.
                 by eapply list_elem_of_lookup_2.
              ** apply lookup_lt_Some in Hj. rewrite length_app in Hj. simpl in Hj. lia.
        -- rewrite lookup_insert_ne by done. rewrite Hm. split.
           ++ intros Hj. by apply lookup_app_l_Some.
           ++ intros Hj. apply lookup_app_Some in Hj as [Hj|[_ Hj]]; [done|].
              apply list_lookup_singleton_Some in Hj as [_ ?]. done.
  - rewrite app_nil_r. split; [|done].
    rewrite Hg. apply list_fmap_ext. intros j k Hk.
    rewrite filter_snoc_key, Ek. by rewrite app_nil_r.
Qed.

Lemma grouped_fold cs' cs g :
  grouped cs g → grouped (cs ++ cs') (fold_left groupComponent cs' g).
Proof.
  revert cs g. induction cs' as [|c cs' IH]; intros cs g Hg; simpl.
  - by rewrite app_nil_r.
  - replace (cs ++ c :: cs') with ((cs ++ [c]) ++ cs') by (by rewrite <- app_assoc).
    apply IH. by apply grouped_step.
Qed.

Lemma fold_components structs g :
  fold_left (λ g s, fold_left groupComponent (components s) g) structs g
  = fold_left groupComponent (structs ≫= components) g.
Proof.
  revert g. induction structs as [|s structs IH]; intros g; simpl; [done|].
  by rewrite IH, fold_left_app.
Qed.

(** C10. [getComponentGroups] of no structure is empty; of one structure
    it is one singleton group per component, keyed or not; of two or more
    it is the grouping by key in first-encounter order, and a component is
    in a group exactly when it has a non-empty key. *)
Theorem getComponentGroups_cases :
  getComponentGroups [] = [] ∧
  (∀ s, getComponentGroups [s] = (λ c, [c]) <$> components s) ∧
  (∀ s1 s2 rest,
     getComponentGroups (s1 :: s2 :: rest)
     = groupsByKey ((s1 :: s2 :: rest) ≫= components)) ∧
  (∀ s1 s2 rest c,
     c ∈ mjoin (getComponentGroups (s1 :: s2 :: rest)) ↔
     c ∈ (s1 :: s2 :: rest) ≫= components ∧
       ∃ k, key c = Some k ∧ k ≠ "").
Proof.
  assert (∀ s1 s2 rest,
     getComponentGroups (s1 :: s2 :: rest)
     = groupsByKey ((s1 :: s2 :: rest) ≫= components)) as Hmany.
  { intros s1 s2 rest. unfold getComponentGroups. rewrite fold_components.
    destruct (grouped_fold ((s1 :: s2 :: rest) ≫= components) [] _ grouped_nil)
      as [Hg _].
    exact Hg. }
  split; [done|]. split; [done|]. split; [exact Hmany|].
  intros s1 s2 rest c. rewrite Hmany.
  set (cs := (s1 :: s2 :: rest) ≫= components).
  unfold groupsByKey. rewrite list_elem_of_join. split.
  - intros (grp & Hc & Hgrp).
    apply list_elem_of_fmap in Hgrp as (k & -> & Hk).
    apply list_elem_of_filter in Hc as [Hkey Hc]. split; [done|].
    unfold groupKey in Hkey. destruct (key c) as [k'|]; [|done].
    case_bool_decide; [done|]. eauto.
  - intros (Hc & k & Hk & Hne).
    assert (groupKey c = Some k) as Hkey.
    { unfold groupKey. rewrite Hk. by rewrite bool_decide_eq_false_2. }
    exists (filter (λ c', groupKey c' = Some k) cs). split.
    + by apply list_elem_of_filter.
    + apply list_elem_of_fmap. exists k. split; [done|].
      apply elem_of_firstOccurrences. apply list_elem_of_omap. eauto.
Qed.

(** Two structures that both hold a polymer and a component without key. *)
Definition polymerA : StructureComponentRef := {| component_ref := "a1"; key := Some "polymer" |}.
Definition ligandA : StructureComponentRef := {| component_ref := "a2"; key := Some "ligand" |}.
Definition unkeyedA : StructureComponentRef := {| component_ref := "a3"; key := None |}.
Definition emptyKeyA : StructureComponentRef := {| component_ref := "a4"; key := Some "" |}.
Definition polymerB : StructureComponentRef := {| component_ref := "b1"; key := Some "polymer" |}.
Definition structureA : StructureRef :=
  {| structure_ref := "A"; components := [unkeyedA; ligandA; emptyKeyA; polymerA] |}.
Definition structureB : StructureRef :=
  {| structure_ref := "B"; components := [polymerB] |}.

Example getComponentGroups_one :
  getComponentGroups [structureA] = [[unkeyedA]; [ligandA]; [emptyKeyA]; [polymerA]].
Proof. reflexivity. Qed.

Example getComponentGroups_two :
  getComponentGroups [structureA; structureB] = [[ligandA]; [polymerA; polymerB]].
Proof. vm_compute. reflexivity. Qed.

End HierarchyFacts.

(** ** The state tree *)

Module TreeFacts.
Import StateTree.

Section Tree.
Context {Kind Params : Type}.
Implicit Types (T : StateTree Kind Params) (r p c : Ref) (t : Transform Kind Params).

#[export] Instance wellFormed_dec T : Decision (wellFormed T).
Proof.
  unfold wellFormed.
  apply and_dec; [apply _|]. apply and_dec; [apply _|].
  apply and_dec; [|apply _].
  apply map_Forall_dec. intros r t. apply and_dec; [apply _|].
  destruct (parent t); apply _.
Defined.

#[export] Instance valid_dec T : Decision (valid T).
Proof. unfold valid. apply _. Defined.

Lemma valid_wellFormed T : valid T → wellFormed T.
Proof. by intros [? _]. Qed.

Lemma wellFormed_root_parent T : wellFormed T → parentOf T (rootRef T) = None.
Proof. by intros (? & _). Qed.

Lemma wellFormed_node T r t :
  wellFormed T → transforms T !! r = Some t →
  ref t = r ∧
  match parent t with None => r = rootRef T | Some p => r ∈ childrenOf T p end.
Proof. intros (_ & _ & Hn & _) Hr. exact (Hn r t Hr). Qed.

Lemma childrenOf_parent T p c : wellFormed T → c ∈ childrenOf T p → parentOf T c = Some p.
Proof.
  intros (_ & _ & _ & Hc & _) Hin. unfold childrenOf in Hin.
  destruct (children T !! p) as [l|] eqn:E; simpl in Hin.
  - destruct (Hc p l E) as (_ & _ & Hall).
    by apply (proj1 (Forall_forall _ _) Hall).
  - by apply not_elem_of_nil in Hin.
Qed.

Lemma childrenOf_NoDup T p : wellFormed T → NoDup (childrenOf T p).
Proof.
  intros (_ & _ & _ & Hc & _). unfold childrenOf.
  destruct (children T !! p) as [l|] eqn:E; simpl; [|constructor].
  by destruct (Hc p l E) as (_ & ? & _).
Qed.

Lemma childrenOf_in_tree T p c :
  wellFormed T → c ∈ childrenOf T p → is_Some (transforms T !! p).
Proof.
  intros (_ & _ & _ & Hc & _) Hin. unfold childrenOf in Hin.
  destruct (children T !! p) as [l|] eqn:E; simpl in Hin.
  - by destruct (Hc p l E) as (? & _).
  - by apply not_elem_of_nil in Hin.
Qed.

Lemma parentOf_Some T r p :
  parentOf T r = Some p ↔ ∃ t, transforms T !! r = Some t ∧ parent t = Some p.
Proof.
  unfold parentOf. destruct (transforms T !! r) as [t|]; simpl; naive_solver.
Qed.

Lemma parentOf_childrenOf T r p :
  wellFormed T → parentOf T r = Some p → r ∈ childrenOf T p.
Proof.
  intros Hw (t & Ht & Hp)%parentOf_Some.
  destruct (wellFormed_node T r t Hw Ht) as (_ & Hc). by rewrite Hp in Hc.
Qed.

(** A node is at one depth only. *)
Lemma level_unique T j k r : wellFormed T → r ∈ level T j → r ∈ level T k → j = k.
Proof.
  intros Hw. revert k r. induction j as [|j IH]; intros [|k] r; simpl.
  - done.
  - intros ->%list_elem_of_singleton (q & Hq & _)%list_elem_of_bind.
    apply (childrenOf_parent T q _ Hw) in Hq. by rewrite wellFormed_root_parent in Hq.
  - intros (q & Hq & _)%list_elem_of_bind ->%list_elem_of_singleton.
    apply (childrenOf_parent T q _ Hw) in Hq. by rewrite wellFormed_root_parent in Hq.
  - intros (q & Hq & Hqj)%list_elem_of_bind (q' & Hq' & Hqk)%list_elem_of_bind.
    apply (childrenOf_parent T q _ Hw) in Hq.
    apply (childrenOf_parent T q' _ Hw) in Hq'.
    assert (q = q') as <- by congruence. f_equal. by eapply IH.
Qed.

Lemma level_NoDup T k : wellFormed T → NoDup (level T k).
Proof.
  intros Hw. induction k as [|k IH]; simpl.
  - apply NoDup_singleton.
  - apply NoDup_bind; [|by intros; apply childrenOf_NoDup|done].
    intros q q' c _ _ Hq Hq'.
    apply (childrenOf_parent T q _ Hw) in Hq.
    apply (childrenOf_parent T q' _ Hw) in Hq'. congruence.
Qed.

Lemma level_in_tree T k r : wellFormed T → r ∈ level T k → is_Some (transforms T !! r).
Proof.
  intros Hw. destruct k as [|k]; simpl.
  - intros ->%list_elem_of_singleton. by destruct Hw as (_ & ? & _).
  - intros (q & Hq & _)%list_elem_of_bind.
    apply (childrenOf_parent T q _ Hw), parentOf_Some in Hq as (t & -> & _). eauto.
Qed.


(** *** The bound on the depth

    The nodes on the way from the root to a node at depth [k] are [k + 1]
    nodes of the tree: the listing by depth, which stops at the number of
    nodes, has every node that hangs below the root. *)

Lemma level_nonempty T k : level T (S k) ≠ [] → level T k ≠ [].
Proof. simpl. by destruct (level T k). Qed.

Lemma levels_pick T k :
  wellFormed T → level T k ≠ [] →
  ∃ l : list Ref, length l = S k ∧ NoDup l ∧ ∀ x, x ∈ l → ∃ i, i ≤ k ∧ x ∈ level T i.
Proof.
  intros Hw. induction k as [|k IH]; intros Hne.
  - exists [rootRef T]. split; [done|]. split; [apply NoDup_singleton|].
    intros x ->%list_elem_of_singleton. exists 0. split; [done|]. simpl. left.
  - destruct (IH (level_nonempty T k Hne)) as (l & Hlen & Hnd & Hl).
    destruct (level T (S k)) as [|x rest] eqn:E; [done|].
    assert (x ∈ level T (S k)) as Hx by (rewrite E; left).
    exists (x :: l). split; [simpl; lia|]. split.
    + apply NoDup_cons. split; [|done]. intros (i & Hi & Hxi)%Hl.
      pose proof (level_unique T _ _ x Hw Hx Hxi). lia.
    + intros y [->|Hy]%elem_of_cons; [by eauto|].
      destruct (Hl y Hy) as (i & Hi & Hyi). exists i. split; [lia|done].
Qed.

Lemma level_lt_size T k r : wellFormed T → r ∈ level T k → k < size (transforms T).
Proof.
  intros Hw Hr.
  destruct (levels_pick T k Hw) as (l & Hlen & Hnd & Hl).
  { intros E. rewrite E in Hr. by apply not_elem_of_nil in Hr. }
  assert (list_to_set l ⊆ dom (transforms T)) as Hsub.
  { intros x Hx. apply elem_of_list_to_set in Hx. apply elem_of_dom.
    destruct (Hl x Hx) as (i & _ & Hxi). by eapply level_in_tree. }
  apply subseteq_size in Hsub.
  rewrite size_list_to_set, size_dom in Hsub by done. lia.
Qed.

(** A tree is valid when it is well formed and every node is at some
    depth below the root. *)
Lemma valid_iff T :
  valid T ↔
  wellFormed T ∧ ∀ r, is_Some (transforms T !! r) → ∃ k, r ∈ level T k.
Proof.
  split.
  - intros [Hw Hall]. split; [done|]. intros r [t Ht].
    specialize (Hall r t Ht). simpl in Hall.
    apply list_elem_of_bind in Hall as (k & Hr & _). eauto.
  - intros [Hw Hall]. split; [done|]. intros r t Ht. simpl.
    destruct (Hall r) as [k Hk]; [by eauto|].
    apply list_elem_of_bind. exists k. split; [done|].
    apply elem_of_seq. pose proof (level_lt_size T k r Hw Hk). lia.
Qed.

Lemma valid_root_parent T : valid T → parentOf T (rootRef T) = None.
Proof. intros [Hw _]. by apply wellFormed_root_parent. Qed.

Lemma valid_node T r t :
  valid T → transforms T !! r = Some t →
  ref t = r ∧
  match parent t with None => r = rootRef T | Some p => r ∈ childrenOf T p end ∧
  r ∈ byDepth T.
Proof.
  intros [Hw Hall] Hr. destruct (wellFormed_node T r t Hw Hr) as [? ?].
  split; [done|]. split; [done|]. exact (Hall r t Hr).
Qed.

Lemma byDepth_NoDup T : valid T → NoDup (byDepth T).
Proof.
  intros [Hw _]. unfold byDepth. apply NoDup_bind.
  - intros j k r _ _. by apply level_unique.
  - intros k _. by apply level_NoDup.
  - apply NoDup_seq.
Qed.

Lemma elem_of_byDepth T r :
  r ∈ byDepth T ↔ ∃ k, k < size (transforms T) ∧ r ∈ level T k.
Proof.
  unfold byDepth. rewrite list_elem_of_bind. split.
  - intros (k & Hr & Hk). apply elem_of_seq in Hk. exists k. split; [lia|done].
  - intros (k & Hk & Hr). exists k. split; [done|]. apply elem_of_seq. lia.
Qed.

(** The listing by depth holds the nodes of the tree, each once. *)
Lemma byDepth_in_tree T r : valid T → r ∈ byDepth T ↔ is_Some (transforms T !! r).
Proof.
  intros Hv. split.
  - intros (k & _ & Hk)%elem_of_byDepth.
    eapply level_in_tree; [by apply valid_wellFormed|done].
  - intros [t Ht]. by destruct (valid_node T r t Hv Ht) as (_ & _ & ?).
Qed.

(** The invariant, node by node. *)
Lemma wellFormed_intro T :
  parentOf T (rootRef T) = None →
  is_Some (transforms T !! rootRef T) →
  (∀ r t, transforms T !! r = Some t →
     ref t = r ∧
     match parent t with None => r = rootRef T | Some p => r ∈ childrenOf T p end) →
  (∀ p l, children T !! p = Some l →
     is_Some (transforms T !! p) ∧ NoDup l ∧ ∀ c, c ∈ l → parentOf T c = Some p) →
  (∀ r, is_Some (transforms T !! r) → is_Some (children T !! r)) →
  wellFormed T.
Proof.
  intros Hroot Hin Hnodes Hch Hentry. split; [done|]. split; [done|].
  split; [exact Hnodes|]. split.
  - intros q l Hl. destruct (Hch q l Hl) as (? & ? & Hall).
    split; [done|]. split; [done|]. by apply Forall_forall.
  - intros r t Ht. apply Hentry. eauto.
Qed.

Lemma wellFormed_children T p l :
  wellFormed T → children T !! p = Some l →
  is_Some (transforms T !! p) ∧ NoDup l ∧ ∀ c, c ∈ l → parentOf T c = Some p.
Proof.
  intros (_ & _ & _ & Hc & _) Hl. destruct (Hc p l Hl) as (? & ? & Hall).
  split; [done|]. split; [done|]. by apply Forall_forall.
Qed.

Lemma wellFormed_entry T r :
  wellFormed T → is_Some (transforms T !! r) → is_Some (children T !! r).
Proof. intros (_ & _ & _ & _ & He) [t Ht]. exact (He r t Ht). Qed.

Lemma wellFormed_root T : wellFormed T → is_Some (transforms T !! rootRef T).
Proof. by intros (_ & ? & _). Qed.

Lemma children_in_tree T p :
  wellFormed T → is_Some (children T !! p) → is_Some (transforms T !! p).
Proof. intros Hw [l Hl]. by destruct (wellFormed_children T p l Hw Hl) as (? & _). Qed.

(** The tree with only a root is valid. *)
Lemma create_valid (root : Ref) (rootParams : Params) :
  valid (create (Kind:=Kind) root rootParams).
Proof.
  apply valid_iff. split.
  - apply wellFormed_intro; unfold create, parentOf, childrenOf; simpl.
    + by rewrite lookup_singleton_eq.
    + rewrite lookup_singleton_eq. eauto.
    + intros r t [<- <-]%lookup_singleton_Some. done.
    + intros p l [<- <-]%lookup_singleton_Some. rewrite lookup_singleton_eq.
      split; [by eauto|]. split; [constructor|]. intros c Hc.
      by apply not_elem_of_nil in Hc.
    + intros r [t [<- _]%lookup_singleton_Some]. rewrite lookup_singleton_eq. eauto.
  - unfold create. simpl. intros r [t [<- _]%lookup_singleton_Some]. exists 0. simpl. left.
Qed.

Lemma level_ext T T' k :
  rootRef T' = rootRef T → (∀ x, childrenOf T' x = childrenOf T x) →
  level T' k = level T k.
Proof.
  intros Hroot Hch. induction k as [|k IH]; simpl; [by rewrite Hroot|].
  rewrite IH. by apply list_bind_ext.
Qed.

(** A tree with the parents and the children of a valid tree is valid. *)
Lemma valid_same_shape T T' :
  rootRef T' = rootRef T →
  children T' = children T →
  (∀ x, parentOf T' x = parentOf T x) →
  (∀ x, is_Some (transforms T' !! x) ↔ is_Some (transforms T !! x)) →
  (∀ x t', transforms T' !! x = Some t' → ref t' = x) →
  valid T → valid T'.
Proof.
  intros Hroot Hch Hpar Hdom Href [Hw Hreach]%valid_iff. apply valid_iff.
  assert (∀ x, childrenOf T' x = childrenOf T x) as Hco
    by (intros x; unfold childrenOf; by rewrite Hch).
  split.
  - apply wellFormed_intro.
    + rewrite Hroot, Hpar. by apply wellFormed_root_parent.
    + rewrite Hroot. apply Hdom. by apply wellFormed_root.
    + intros x t' Ht'. split; [by apply Href|].
      assert (parentOf T' x = parent t') as Hp by (unfold parentOf; by rewrite Ht').
      rewrite Hpar in Hp. destruct (proj1 (Hdom x)) as [t Ht]; [by eauto|].
      destruct (wellFormed_node T x t Hw Ht) as [_ Hm].
      unfold parentOf in Hp. rewrite Ht in Hp. simpl in Hp. rewrite <- Hp, Hroot.
      destruct (parent t); [by rewrite Hco|done].
    + intros q l Hl. rewrite Hch in Hl.
      destruct (wellFormed_children T q l Hw Hl) as (? & ? & Hall).
      split; [by apply Hdom|]. split; [done|]. intros c Hc. rewrite Hpar. by apply Hall.
    + intros x Hx. rewrite Hch. apply (wellFormed_entry T x Hw). by apply Hdom.
  - intros x Hx%Hdom. destruct (Hreach x Hx) as [k Hk]. exists k.
    by rewrite (level_ext T T' k Hroot Hco).
Qed.

(** *** Subtrees *)

Lemma preorder_self n T r : r ∈ preorder (S n) T r.
Proof. simpl. left. Qed.

Lemma preorder_child n T r q c :
  c ∈ childrenOf T q → q ∈ preorder n T r → c ∈ preorder (S n) T r.
Proof.
  revert r. induction n as [|n IH]; intros r Hc Hq; simpl in Hq.
  - by apply not_elem_of_nil in Hq.
  - cbn [preorder]. right. apply list_elem_of_bind.
    apply elem_of_cons in Hq as [->|Hq].
    + exists c. split; [apply preorder_self|done].
    + apply list_elem_of_bind in Hq as (x & Hq & Hx).
      exists x. split; [|done]. by apply IH.
Qed.

Lemma preorder_mono n m T r x : n ≤ m → x ∈ preorder n T r → x ∈ preorder m T r.
Proof.
  revert m r. induction n as [|n IH]; intros m r Hle Hx; simpl in Hx.
  - by apply not_elem_of_nil in Hx.
  - destruct m as [|m]; [lia|]. simpl.
    apply elem_of_cons in Hx as [->|Hx]; [left|right].
    apply list_elem_of_bind in Hx as (y & Hx & Hy).
    apply list_elem_of_bind. exists y. split; [|done]. apply IH; [lia|done].
Qed.

Lemma descendant_level T i r d :
  wellFormed T → r ∈ level T i → descendant T d r →
  ∃ j, d ∈ level T (i + S j) ∧ d ∈ preorder (S (S j)) T r.
Proof.
  intros Hv Hr. induction 1 as [d r Hp|d q r Hp Hq IH].
  - exists 0. apply (parentOf_childrenOf T d r Hv) in Hp. split.
    + replace (i + 1) with (S i) by lia. simpl. apply list_elem_of_bind. eauto.
    + eapply preorder_child; [done|apply preorder_self].
  - destruct (IH Hr) as (j & Hqj & Hqr).
    apply (parentOf_childrenOf T d q Hv) in Hp. exists (S j). split.
    + replace (i + S (S j)) with (S (i + S j)) by lia. simpl.
      apply list_elem_of_bind. eauto.
    + by eapply preorder_child.
Qed.

(** In a valid tree [subtreeRefs] lists every node below its argument. *)
Lemma descendant_subtreeRefs T r d :
  valid T → descendant T d r → d ∈ subtreeRefs T r.
Proof.
  intros Hv Hd. pose proof (valid_wellFormed T Hv) as Hw.
  assert (is_Some (transforms T !! r)) as Hr.
  { induction Hd as [d r Hp|]; [|done].
    apply (parentOf_childrenOf T d r Hw) in Hp. by eapply childrenOf_in_tree. }
  pose proof Hr as (i & Hi & Hri)%byDepth_in_tree%elem_of_byDepth; [|done].
  destruct (descendant_level T i r d Hw Hri Hd) as (j & Hdj & Hpre).
  pose proof (level_in_tree T _ d Hw Hdj) as (k & Hk & Hdk)%byDepth_in_tree%elem_of_byDepth;
    [|done].
  pose proof (level_unique T _ _ d Hw Hdj Hdk).
  unfold subtreeRefs. destruct Hr as [t ->].
  eapply preorder_mono; [|done]. lia.
Qed.

Lemma descendant_parent T d r :
  descendant T d r → ∃ q, parentOf T d = Some q ∧ (q = r ∨ descendant T q r).
Proof. destruct 1 as [d r Hp|d q r Hp Hq]; eauto. Qed.

Lemma descendant_up T d c r :
  descendant T d c → parentOf T c = Some r → descendant T d r.
Proof.
  induction 1 as [d c Hp|d q c Hp Hq IH]; intros Hc.
  - eapply descendant_below; [done|]. by apply descendant_child.
  - eapply descendant_below; [done|]. by apply IH.
Qed.

(** What [preorder] lists is its argument or below it. *)
Lemma preorder_descendant n T r x :
  wellFormed T → x ∈ preorder n T r → x = r ∨ descendant T x r.
Proof.
  intros Hw. revert r. induction n as [|n IH]; intros r Hx; simpl in Hx.
  - by apply not_elem_of_nil in Hx.
  - apply elem_of_cons in Hx as [->|Hx]; [by left|]. right.
    apply list_elem_of_bind in Hx as (c & Hx & Hc).
    apply (childrenOf_parent T r c Hw) in Hc.
    destruct (IH c Hx) as [->|Hd]; [by apply descendant_child|].
    by eapply descendant_up.
Qed.

(** In a valid tree the subtree of a node is the node and its descendants. *)
Lemma elem_of_subtreeRefs T r x :
  valid T → is_Some (transforms T !! r) →
  x ∈ subtreeRefs T r ↔ x = r ∨ descendant T x r.
Proof.
  intros Hv [t Ht]. split.
  - unfold subtreeRefs. rewrite Ht. apply preorder_descendant. by apply valid_wellFormed.
  - intros [->|Hd]; [|by apply descendant_subtreeRefs].
    unfold subtreeRefs. rewrite Ht.
    destruct (size (transforms T)) as [|n] eqn:E; [|apply preorder_self].
    apply map_size_empty_iff in E. rewrite E in Ht. by rewrite lookup_empty in Ht.
Qed.

(** No node is below itself. *)
Lemma descendant_irrefl T r : valid T → ¬ descendant T r r.
Proof.
  intros Hv Hd. pose proof (valid_wellFormed T Hv) as Hw.
  assert (is_Some (transforms T !! r)) as Hr.
  { apply descendant_parent in Hd as (q & (t & -> & _)%parentOf_Some & _). eauto. }
  apply (byDepth_in_tree T r Hv), elem_of_byDepth in Hr as (i & _ & Hi).
  destruct (descendant_level T i r r Hw Hi Hd) as (j & Hj & _).
  pose proof (level_unique T _ _ r Hw Hi Hj). lia.
Qed.

(** *** Lists *)

Lemma filter_bind {A B} (P : B → Prop) `{!∀ x, Decision (P x)} (f : A → list B) (l : list A) :
  filter P (l ≫= f) = l ≫= (λ x, filter P (f x)).
Proof.
  induction l as [|x l IH]; [done|].
  by rewrite !bind_cons, filter_app, IH.
Qed.

Lemma filter_all {A} (P : A → Prop) `{!∀ x, Decision (P x)} (l : list A) :
  (∀ x, x ∈ l → P x) → filter P l = l.
Proof.
  induction l as [|x l IH]; intros Hall; [done|].
  rewrite filter_cons_True by (apply Hall; left).
  f_equal. apply IH. intros y Hy. apply Hall. by right.
Qed.

Lemma filter_nothing {A} (P : A → Prop) `{!∀ x, Decision (P x)} (l : list A) :
  (∀ x, x ∈ l → ¬ P x) → filter P l = [].
Proof.
  induction l as [|x l IH]; intros Hno; [done|].
  rewrite filter_cons_False by (apply Hno; left).
  apply IH. intros y Hy. apply Hno. by right.
Qed.

(** A bind that is empty except at [x]. *)
Lemma bind_at {A B} `{!EqDecision A} (x : A) (ys : list B) (l : list A) :
  NoDup l →
  l ≫= (λ y, if decide (y = x) then ys else []) = if decide (x ∈ l) then ys else [].
Proof.
  induction 1 as [|y l Hy Hl IH]; [done|].
  rewrite bind_cons, IH. destruct (decide (y = x)) as [->|Hne].
  - rewrite (decide_False (P:=x ∈ l)) by done.
    rewrite decide_True by left. by rewrite app_nil_r.
  - destruct (decide (x ∈ l)) as [Hin|Hnin].
    + rewrite decide_True by (by right). done.
    + rewrite decide_False; [done|]. intros [?|?]%elem_of_cons; done.
Qed.

(** *** The children of a node, read off the listing by depth *)

Lemma filter_children T q k :
  wellFormed T →
  filter (λ r, parentOf T r = Some k) (childrenOf T q)
  = if decide (q = k) then childrenOf T k else [].
Proof.
  intros Hv. destruct (decide (q = k)) as [->|Hne].
  - apply filter_all. intros c Hc. by apply childrenOf_parent.
  - apply filter_nothing. intros c Hc Hk.
    apply (childrenOf_parent T q c Hv) in Hc. congruence.
Qed.

Lemma filter_level T k j :
  wellFormed T →
  filter (λ r, parentOf T r = Some k) (level T j)
  = match j with
    | 0 => []
    | S j' => if decide (k ∈ level T j') then childrenOf T k else []
    end.
Proof.
  intros Hv. destruct j as [|j]; simpl.
  - apply filter_nothing. intros r ->%list_elem_of_singleton.
    by rewrite wellFormed_root_parent.
  - rewrite filter_bind.
    rewrite (list_bind_ext _ (λ q, if decide (q = k) then childrenOf T k else [])
               (level T j) (level T j)); [|by intros; apply filter_children|done].
    apply bind_at. by apply level_NoDup.
Qed.

(** Among the nodes by depth, those whose parent is [k] are the children
    of [k], in their order. *)
Lemma filter_byDepth T k :
  valid T → is_Some (transforms T !! k) →
  filter (λ r, parentOf T r = Some k) (byDepth T) = childrenOf T k.
Proof.
  intros Hv Hk. pose proof (valid_wellFormed T Hv) as Hw.
  apply (byDepth_in_tree T k Hv), elem_of_byDepth in Hk as (d & Hd & Hkd).
  unfold byDepth. rewrite filter_bind.
  rewrite (list_bind_ext _ (λ j, if decide (j = S d) then childrenOf T k else [])
             _ (seq 0 (size (transforms T)))); [| |done].
  - rewrite bind_at by apply NoDup_seq.
    destruct (decide (S d ∈ seq 0 (size (transforms T)))) as [_|Hout]; [done|].
    symmetry. apply elem_of_nil_inv. intros c Hc.
    assert (c ∈ level T (S d)) as Hcd.
    { simpl. apply list_elem_of_bind. eauto. }
    assert (c ∈ byDepth T) as (j & Hj & Hcj)%elem_of_byDepth.
    { apply byDepth_in_tree; [done|].
      apply (childrenOf_parent T k c Hw), parentOf_Some in Hc as (t & -> & _). eauto. }
    apply Hout. rewrite (level_unique T (S d) j c Hw Hcd Hcj).
    apply elem_of_seq. lia.
  - intros j. rewrite filter_level by done. destruct j as [|j].
    + by rewrite decide_False.
    + destruct (decide (k ∈ level T j)) as [Hin|Hnin].
      * rewrite (level_unique T j d k Hw Hin Hkd). by rewrite decide_True.
      * rewrite decide_False; [done|]. intros [= ->]. done.
Qed.

(** *** Serialization *)

Lemma ofRecord_toRecord t : ofRecord (toRecord t) = resetVersion t.
Proof. done. Qed.

Lemma toRecord_resetVersion t : toRecord (resetVersion t) = toRecord t.
Proof. done. Qed.

(** The records of a list of nodes of the tree. *)
Definition recordsOf T (l : list Ref) : list (NodeRecord Kind Params) :=
  omap (λ r, toRecord <$> transforms T !! r) l.

Lemma recordsOf_refs T l :
  wellFormed T → (∀ r, r ∈ l → is_Some (transforms T !! r)) →
  rec_ref <$> recordsOf T l = l.
Proof.
  intros Hv. induction l as [|r l IH]; intros Hl; [done|].
  unfold recordsOf in *. simpl. destruct (Hl r) as [t Ht]; [left|].
  rewrite Ht. simpl. destruct (wellFormed_node T r t Hv Ht) as (-> & _).
  f_equal. apply IH. intros r' Hr'. apply Hl. by right.
Qed.

Lemma recordsOf_filter T l k :
  wellFormed T → (∀ r, r ∈ l → is_Some (transforms T !! r)) →
  rec_ref <$> filter (λ n, rec_parentRef n = Some k) (recordsOf T l)
  = filter (λ r, parentOf T r = Some k) l.
Proof.
  intros Hv. induction l as [|r l IH]; intros Hl; [done|].
  unfold recordsOf in *. simpl. destruct (Hl r) as [t Ht]; [left|].
  rewrite Ht. simpl.
  assert (parentOf T r = parent t) as Hp by (unfold parentOf; by rewrite Ht).
  destruct (wellFormed_node T r t Hv Ht) as (Hr & _).
  assert (∀ r', r' ∈ l → is_Some (transforms T !! r')) as Hl'
    by (intros r' Hr'; apply Hl; by right).
  destruct (decide (parent t = Some k)) as [Hk|Hk].
  - rewrite (filter_cons_True (λ n, rec_parentRef n = Some k)) by done.
    rewrite (filter_cons_True (λ r, parentOf T r = Some k)) by (by rewrite Hp).
    rewrite fmap_cons. simpl. rewrite Hr. f_equal. by apply IH.
  - rewrite (filter_cons_False (λ n, rec_parentRef n = Some k)) by done.
    rewrite (filter_cons_False (λ r, parentOf T r = Some k)) by (by rewrite Hp).
    by apply IH.
Qed.

Lemma elem_of_recordsOf T l n :
  n ∈ recordsOf T l ↔ ∃ r t, r ∈ l ∧ transforms T !! r = Some t ∧ n = toRecord t.
Proof.
  unfold recordsOf. rewrite list_elem_of_omap. split.
  - intros (r & Hr & Hn). destruct (transforms T !! r) as [t|] eqn:Ht; [|done].
    injection Hn as <-. eauto.
  - intros (r & t & Hr & Ht & ->). exists r. by rewrite Ht.
Qed.

(** Loading what was saved gives the tree back, its versions at 0. *)
Lemma fromSerializable_toSerializable T :
  valid T → fromSerializable (toSerializable T) = resetVersions T.
Proof.
  intros Hv. pose proof (valid_wellFormed T Hv) as Hw.
  unfold fromSerializable, toSerializable, resetVersions. simpl.
  fold (recordsOf T (byDepth T)).
  assert (∀ r, r ∈ byDepth T → is_Some (transforms T !! r)) as Hin
    by (intros r; by apply byDepth_in_tree).
  pose proof (recordsOf_refs T (byDepth T) Hw Hin) as Hrefs.
  f_equal.
  - apply map_eq. intros k. rewrite lookup_fmap.
    destruct (transforms T !! k) as [t|] eqn:Ht; simpl.
    + apply elem_of_list_to_map_1.
      * rewrite <- list_fmap_compose.
        replace (fst ∘ _) with (rec_ref (Kind:=Kind) (Params:=Params)) by done.
        rewrite Hrefs. by apply byDepth_NoDup.
      * apply list_elem_of_fmap. exists (toRecord t). split.
        -- destruct (valid_node T k t Hv Ht) as (<- & _). done.
        -- apply elem_of_recordsOf. exists k, t. split; [|done].
           apply byDepth_in_tree; eauto.
    + apply not_elem_of_list_to_map_1. rewrite <- list_fmap_compose.
      replace (fst ∘ _) with (rec_ref (Kind:=Kind) (Params:=Params)) by done.
      rewrite Hrefs, byDepth_in_tree by done. rewrite Ht. by intros [? ?].
  - apply map_eq. intros k.
    destruct (transforms T !! k) as [t|] eqn:Ht.
    + assert (is_Some (children T !! k)) as [l Hl].
      { destruct Hw as (_ & _ & _ & _ & Hdom). exact (Hdom k t Ht). }
      rewrite Hl. apply elem_of_list_to_map_1.
      * rewrite <- list_fmap_compose.
        replace (fst ∘ _) with (rec_ref (Kind:=Kind) (Params:=Params)) by done.
        rewrite Hrefs. by apply byDepth_NoDup.
      * apply list_elem_of_fmap. exists (toRecord t). split.
        -- destruct (valid_node T k t Hv Ht) as (Hk & _). simpl. rewrite Hk.
           f_equal. rewrite recordsOf_filter by done.
           rewrite filter_byDepth by eauto. unfold childrenOf. by rewrite Hl.
        -- apply elem_of_recordsOf. exists k, t. split; [|done].
           apply byDepth_in_tree; eauto.
    + replace (children T !! k) with (@None (list Ref)).
      * apply not_elem_of_list_to_map_1. rewrite <- list_fmap_compose.
        replace (fst ∘ _) with (rec_ref (Kind:=Kind) (Params:=Params)) by done.
        rewrite Hrefs, byDepth_in_tree by done. rewrite Ht. by intros [? ?].
      * destruct (children T !! k) as [l|] eqn:Hl; [|done].
        destruct Hw as (_ & _ & _ & Hc & _).
        destruct (Hc k l Hl) as ([t' Ht'] & _). congruence.
Qed.

Lemma level_resetVersions T k : level (resetVersions T) k = level T k.
Proof. induction k as [|k IH]; simpl; [done|]. by rewrite IH. Qed.

Lemma byDepth_resetVersions T : byDepth (resetVersions T) = byDepth T.
Proof.
  unfold byDepth. simpl. rewrite map_size_fmap.
  apply list_bind_ext; try done. intros k. apply level_resetVersions.
Qed.

(** The format does not see versions. *)
Lemma toSerializable_resetVersions T :
  toSerializable (resetVersions T) = toSerializable T.
Proof.
  unfold toSerializable. rewrite byDepth_resetVersions. simpl. f_equal.
  apply list_omap_ext; try done. apply Forall2_same_length_lookup_2; [done|].
  intros i r r' Hr Hr'. assert (r = r') as <- by congruence.
  rewrite lookup_fmap. by destruct (transforms T !! r).
Qed.

(** C2. For a valid tree, loading what was saved gives the same tree with
    its versions at 0: the root, the set of references, the ordered
    children, the parent edges and each node's kind, parameters and flags
    are those of the tree, and every version is 0. What is saved does not
    depend on the versions; objects are held by cells, not by the tree,
    so the format has none. *)
Theorem serialization_round_trip T :
  valid T →
  let T' := fromSerializable (toSerializable T) in
  T' = resetVersions T ∧
  rootRef T' = rootRef T ∧
  dom (transforms T') = dom (transforms T) ∧
  children T' = children T ∧
  (∀ r, parentOf T' r = parentOf T r) ∧
  (∀ r t, transforms T !! r = Some t →
     transforms T' !! r =
       Some {| ref := ref t; parent := parent t; transformer := transformer t;
               params := params t; version := 0; state := state t |}) ∧
  (∀ T2, resetVersions T2 = resetVersions T → toSerializable T2 = toSerializable T).
Proof.
  intros Hv T'. subst T'. rewrite (fromSerializable_toSerializable T Hv).
  split; [done|]. split; [done|]. split; [apply dom_fmap_L|]. split; [done|].
  split; [|split].
  - intros r. unfold parentOf, resetVersions. simpl. rewrite lookup_fmap.
    by destruct (transforms T !! r).
  - intros r t Ht. unfold resetVersions. simpl. by rewrite lookup_fmap, Ht.
  - intros T2 Heq.
    by rewrite <- (toSerializable_resetVersions T2), Heq, toSerializable_resetVersions.
Qed.

End Tree.
End TreeFacts.

(** ** The builder *)

Module BuilderFacts.
Import StateTree Builder TreeFacts.

Section Builder.
Context {Kind Params ObjType : Type} `{!EqDecision ObjType}.
Variable accepts : Kind → list ObjType.
Variable produces : option Kind → list ObjType.
Implicit Types (T : StateTree Kind Params) (b : Builder Kind Params)
  (ups : list (Ref * Params)).

(** A transaction that only updates parameters. *)
Definition updatesOf ups : list (Edit Kind Params) :=
  (λ u, UpdateParams u.1 u.2) <$> ups.

(** What [updateParams] leaves of a node: all but parameters and version. *)
Definition sameNode (t t' : Transform Kind Params) : Prop :=
  ref t' = ref t ∧ parent t' = parent t ∧ transformer t' = transformer t ∧
  state t' = state t.

Lemma applyEdits_updates ups b :
  (∀ u, u ∈ ups → is_Some (transforms (tree b) !! u.1)) →
  ∃ b', applyEdits accepts produces b (updatesOf ups) = inr b' ∧
    rootRef (tree b') = rootRef (tree b) ∧
    children (tree b') = children (tree b) ∧
    (∀ r, r ∉ ups.*1 → transforms (tree b') !! r = transforms (tree b) !! r) ∧
    (∀ r t, transforms (tree b) !! r = Some t →
       ∃ t', transforms (tree b') !! r = Some t' ∧ sameNode t t' ∧
             version t ≤ version t' ∧ (r ∈ ups.*1 → version t < version t')) ∧
    added (changes b') = added (changes b) ∧
    removed (changes b') = removed (changes b) ∧
    updated (changes b') = updated (changes b) ++ ups.*1.
Proof.
  revert b. induction ups as [|[r p] ups IH]; intros b Hin.
  - exists b. simpl. rewrite app_nil_r. repeat split; try done.
    intros r t Ht. exists t. repeat split; try done.
    intros Hr. by apply not_elem_of_nil in Hr.
  - destruct (Hin (r, p)) as [t0 Ht0]; [left|]. simpl in Ht0.
    cbn [updatesOf fmap list_fmap applyEdits applyEdit fst snd].
    unfold updateParams at 1. rewrite Ht0.
    match goal with |- context [applyEdits _ _ ?b1 _] => set (b1' := b1) end.
    destruct (IH b1') as (b' & Hrun & Hroot & Hch & Hother & Hnode & Ha & Hr & Hu).
    { intros u Hu. subst b1'. simpl.
      destruct (decide (r = u.1)) as [<-|Hne].
      - rewrite lookup_insert_eq. eauto.
      - rewrite lookup_insert_ne by done. apply Hin. by right. }
    exists b'. fold (updatesOf ups). rewrite Hrun. subst b1'. simpl in *.
    split; [done|]. split; [done|]. split; [done|]. split; [|split; [|split; [done|]]].
    + intros r' Hr'. rewrite Hother.
      * rewrite lookup_insert_ne; [done|]. intros ->. apply Hr'. left.
      * intros ?. apply Hr'. by right.
    + intros r' t Ht. destruct (decide (r = r')) as [<-|Hne].
      * assert (t = t0) as -> by congruence.
        edestruct Hnode as (t' & Ht' & Hsame & Hle & _); [apply lookup_insert_eq|].
        exists t'. split; [done|]. simpl in *. split; [exact Hsame|]. split; [lia|].
        intros _. lia.
      * edestruct Hnode as (t' & Ht' & Hsame & Hle & Hlt);
          [by rewrite lookup_insert_ne|].
        exists t'. split; [done|]. split; [done|]. split; [done|].
        intros [?|?]%elem_of_cons; [done|]. by apply Hlt.
    + split; [done|]. rewrite Hu. by rewrite <- app_assoc.
Qed.

(** C3. A transaction of [updateParams] calls on references of the tree
    commits; the committed tree has the root and the children map of the
    base tree, the node of every other reference is the node of the base
    tree, every node keeps its reference, parent, kind and flags, and the
    version of each updated reference is strictly greater. Nothing is
    added or removed, and the summary lists the updated references. *)
Theorem updateParams_ref_stability T ups :
  (∀ u, u ∈ ups → is_Some (transforms T !! u.1)) →
  ∃ T' summary,
    commit accepts produces T (updatesOf ups) = inr (T', summary) ∧
    rootRef T' = rootRef T ∧
    children T' = children T ∧
    (∀ r, r ∉ ups.*1 → transforms T' !! r = transforms T !! r) ∧
    (∀ r, parentOf T' r = parentOf T r) ∧
    (∀ r t, r ∈ ups.*1 → transforms T !! r = Some t →
       ∃ t', transforms T' !! r = Some t' ∧ sameNode t t' ∧ version t < version t') ∧
    added summary = [] ∧ removed summary = [] ∧ updated summary = ups.*1.
Proof.
  intros Hin.
  destruct (applyEdits_updates ups {| tree := T; changes := noChanges |} Hin)
    as (b' & Hrun & Hroot & Hch & Hother & Hnode & Ha & Hr & Hu).
  exists (tree b'), (changes b'). unfold commit. rewrite Hrun. simpl in *.
  split; [done|]. split; [done|]. split; [done|]. split; [done|].
  split; [|split; [|done]].
  - intros r. unfold parentOf.
    destruct (transforms T !! r) as [t|] eqn:Ht; simpl.
    + destruct (Hnode r t Ht) as (t' & -> & (_ & Hp & _) & _). simpl. by rewrite Hp.
    + destruct (decide (r ∈ ups.*1)) as [Hr'|Hr'].
      * apply list_elem_of_fmap in Hr' as (u & -> & Hu').
        destruct (Hin u Hu') as [? ?]. congruence.
      * by rewrite Hother, Ht.
  - intros r t Hr' Ht. destruct (Hnode r t Ht) as (t' & Ht' & Hsame & _ & Hlt).
    exists t'. split; [done|]. split; [done|]. by apply Hlt.
Qed.

(** *** The builder keeps the invariant of the tree *)

Lemma updateParams_valid b r p b' :
  valid (tree b) → updateParams b r p = inr b' → valid (tree b').
Proof.
  intros Hv. unfold updateParams.
  destruct (transforms (tree b) !! r) as [t|] eqn:Ht; [|done].
  intros [= <-]. simpl.
  pose proof (valid_wellFormed _ Hv) as Hw.
  destruct (wellFormed_node _ r t Hw Ht) as [Href _].
  apply (valid_same_shape (tree b)); simpl; try done.
  - intros x. unfold parentOf. simpl. destruct (decide (r = x)) as [<-|Hne].
    + by rewrite lookup_insert_eq, Ht.
    + by rewrite lookup_insert_ne.
  - intros x. destruct (decide (r = x)) as [<-|Hne].
    + rewrite lookup_insert_eq, Ht. split; eauto.
    + by rewrite lookup_insert_ne.
  - intros x t'. destruct (decide (r = x)) as [<-|Hne].
    + rewrite lookup_insert_eq. by intros [= <-].
    + rewrite lookup_insert_ne by done. intros Hx.
      by destruct (wellFormed_node _ x t' Hw Hx).
Qed.

Lemma level_mono T T' k x :
  rootRef T' = rootRef T →
  (∀ q c, c ∈ childrenOf T q → c ∈ childrenOf T' q) →
  x ∈ level T k → x ∈ level T' k.
Proof.
  intros Hroot Hch. revert x. induction k as [|k IH]; intros x; simpl.
  - by rewrite Hroot.
  - intros (q & Hx & Hq)%list_elem_of_bind. apply list_elem_of_bind.
    exists q. split; [by apply Hch|by apply IH].
Qed.

Lemma applyTransform_valid b parentRef kind p explicitRef b' :
  valid (tree b) →
  applyTransform accepts produces b parentRef kind p explicitRef = inr b' →
  valid (tree b').
Proof.
  intros [Hw Hreach]%valid_iff. unfold applyTransform.
  destruct (transforms (tree b) !! parentRef) as [pt|] eqn:Hpt; [|done].
  destruct (negb _); [done|].
  set (n := default (fresh (dom (transforms (tree b)))) explicitRef).
  destruct (transforms (tree b) !! n) as [?|] eqn:Hn; [done|].
  intros [= <-]. simpl. set (T := tree b) in *.
  assert (n ≠ parentRef) as Hnp by congruence.
  assert (children T !! n = None) as Hcn.
  { destruct (children T !! n) as [l|] eqn:E; [|done].
    destruct (children_in_tree T n Hw) as [? ?]; [by eauto|congruence]. }
  assert (∀ c q, c ∈ childrenOf T q → c ≠ n) as Hold.
  { intros c q Hc ->. apply (childrenOf_parent T q n Hw), parentOf_Some in Hc
      as (t & Ht & _). congruence. }
  match goal with |- valid ?T0 => set (T' := T0) end.
  assert (∀ q, childrenOf T' q =
               if decide (q = parentRef) then childrenOf T parentRef ++ [n]
               else if decide (q = n) then [] else childrenOf T q) as Hco.
  { intros q. unfold childrenOf at 1. subst T'. simpl.
    destruct (decide (q = parentRef)) as [->|Hq]; [by rewrite lookup_insert_eq|].
    rewrite lookup_insert_ne by done.
    destruct (decide (q = n)) as [->|Hq']; [by rewrite lookup_insert_eq|].
    by rewrite lookup_insert_ne. }
  assert (∀ q c, c ∈ childrenOf T q → c ∈ childrenOf T' q) as Hsub.
  { intros q c Hc. rewrite Hco. destruct (decide (q = parentRef)) as [->|Hq].
    - apply elem_of_app. by left.
    - destruct (decide (q = n)) as [->|Hq']; [|done].
      unfold childrenOf in Hc. rewrite Hcn in Hc. done. }
  assert (∀ x, x ≠ n → parentOf T' x = parentOf T x) as Hpo.
  { intros x Hx. unfold parentOf. subst T'. simpl. by rewrite lookup_insert_ne. }
  assert (parentOf T' n = Some parentRef) as Hpn.
  { unfold parentOf. subst T'. simpl. by rewrite lookup_insert_eq. }
  assert (rootRef T ≠ n) as Hrn.
  { intros E. destruct (wellFormed_root T Hw) as [? ?]. congruence. }
  apply valid_iff. split.
  - apply wellFormed_intro.
    + change (rootRef T') with (rootRef T). rewrite Hpo by done.
      by apply wellFormed_root_parent.
    + change (rootRef T') with (rootRef T). subst T'. simpl.
      rewrite lookup_insert_ne by done. by apply wellFormed_root.
    + intros x t. subst T'. simpl. destruct (decide (n = x)) as [<-|Hx].
      * rewrite lookup_insert_eq. intros [= <-]. simpl. split; [done|].
        rewrite Hco, decide_True by done. apply elem_of_app. right. left.
      * rewrite lookup_insert_ne by done. intros Ht.
        destruct (wellFormed_node T x t Hw Ht) as [? Hm]. split; [done|].
        destruct (parent t); [by apply Hsub|done].
    + intros q l. subst T'. simpl. destruct (decide (parentRef = q)) as [<-|Hq].
      * rewrite lookup_insert_eq. intros [= <-].
        split; [rewrite lookup_insert_ne by done; eauto|]. split.
        -- apply NoDup_app. split; [by apply childrenOf_NoDup|]. split.
           ++ intros c Hc ->%list_elem_of_singleton. by eapply Hold.
           ++ apply NoDup_singleton.
        -- intros c [Hc| ->%list_elem_of_singleton]%elem_of_app; [|done].
           rewrite Hpo by (by eapply Hold). by apply childrenOf_parent.
      * rewrite lookup_insert_ne by done. destruct (decide (n = q)) as [<-|Hq'].
        -- rewrite lookup_insert_eq. intros [= <-].
           split; [rewrite lookup_insert_eq; eauto|]. split; [constructor|].
           intros c Hc. by apply not_elem_of_nil in Hc.
        -- rewrite lookup_insert_ne by done. intros Hl.
           destruct (wellFormed_children T q l Hw Hl) as (Hq'' & ? & Hall).
           split; [by rewrite lookup_insert_ne|]. split; [done|].
           intros c Hc. rewrite Hpo; [by apply Hall|].
           intros ->. apply Hall, parentOf_Some in Hc as (t & Ht & _). congruence.
    + intros x. subst T'. simpl. destruct (decide (n = x)) as [<-|Hx].
      * intros _. rewrite lookup_insert_ne by done. rewrite lookup_insert_eq. eauto.
      * rewrite lookup_insert_ne by done. intros Hx'%(wellFormed_entry T x Hw).
        destruct (decide (parentRef = x)) as [<-|?].
        -- rewrite lookup_insert_eq. eauto.
        -- rewrite !lookup_insert_ne by done. done.
  - intros x. subst T'. simpl. destruct (decide (n = x)) as [<-|Hx].
    + intros _. destruct (Hreach parentRef) as [k Hk]; [by eauto|].
      exists (S k). simpl. apply list_elem_of_bind. exists parentRef. split.
      * rewrite Hco, decide_True by done. apply elem_of_app. right. left.
      * by apply (level_mono T).
    + rewrite lookup_insert_ne by done. intros [k Hk]%Hreach.
      exists k. by apply (level_mono T).
Qed.

Lemma delete_valid b r : valid (tree b) → valid (tree (delete b r)).
Proof.
  intros Hv. unfold delete. case_bool_decide as Hroot; [done|].
  destruct (transforms (tree b) !! r) as [t|] eqn:Ht; [|done].
  simpl. set (T := tree b) in *. pose proof (valid_wellFormed T Hv) as Hw.
  destruct (wellFormed_node T r t Hw Ht) as [_ Hm].
  destruct (parent t) as [p0|] eqn:Hp0; [|done].
  set (gone := subtreeRefs T r).
  assert (∀ x, x ∈ gone ↔ x = r ∨ descendant T x r) as Hgone
    by (intros x; apply elem_of_subtreeRefs; eauto).
  assert (parentOf T r = Some p0) as Hpr by (unfold parentOf; by rewrite Ht).
  assert (∀ x q, x ∉ gone → parentOf T x = Some q → q ∉ gone) as Hup.
  { intros x q Hx Hq [->|Hd]%Hgone; apply Hx, Hgone; right.
    - by apply descendant_child.
    - by eapply descendant_below. }
  assert (∀ c q, c ∈ gone → parentOf T c = Some q → q ∉ gone → c = r) as Hdown.
  { intros c q [->|Hd]%Hgone Hq Hnq; [done|]. exfalso. apply Hnq, Hgone.
    apply descendant_parent in Hd as (q' & Hq' & Hd).
    assert (q' = q) as -> by congruence. done. }
  assert (p0 ∉ gone) as Hp0g.
  { intros [->|Hd]%Hgone; apply (descendant_irrefl T r Hv).
    - by apply descendant_child.
    - by eapply descendant_below. }
  assert (r ∈ gone) as Hrg by (apply Hgone; by left).
  assert (rootRef T ∉ gone) as Hrootg.
  { intros [E|Hd]%Hgone; [done|].
    apply descendant_parent in Hd as (q & Hq & _).
    by rewrite wellFormed_root_parent in Hq. }
  match goal with |- valid ?T0 => set (T' := T0) end.
  assert (∀ x, x ∈ gone → transforms T' !! x = None) as Htr_gone.
  { intros x Hx. subst T'. simpl. apply map_lookup_filter_None_2. right.
    intros y _ Hn. by apply Hn. }
  assert (∀ x, x ∉ gone → transforms T' !! x = transforms T !! x) as Htr.
  { intros x Hx. subst T'. simpl. destruct (transforms T !! x) as [y|] eqn:E.
    - by apply map_lookup_filter_Some_2.
    - apply map_lookup_filter_None_2. by left. }
  assert (∀ x, x ∈ gone → children T' !! x = None) as Hch_gone.
  { intros x Hx. subst T'. simpl. rewrite lookup_alter_ne by (by intros ->).
    apply map_lookup_filter_None_2. right. intros y _ Hn. by apply Hn. }
  assert (∀ x, x ∉ gone → children T' !! x =
               if decide (x = p0) then filter (λ c, c ≠ r) <$> children T !! x
               else children T !! x) as Hch.
  { intros x Hx.
    assert (filter (λ kv : string * list Ref, kv.1 ∉ gone) (children T) !! x
            = children T !! x) as Hkept.
    { destruct (children T !! x) as [y|] eqn:E.
      - by apply map_lookup_filter_Some_2.
      - apply map_lookup_filter_None_2. by left. }
    subst T'. simpl. destruct (decide (x = p0)) as [->|Hx0].
    - by rewrite lookup_alter_eq, Hkept.
    - rewrite lookup_alter_ne by done. exact Hkept. }
  assert (∀ x, x ∉ gone → parentOf T' x = parentOf T x) as Hpo.
  { intros x Hx. unfold parentOf. by rewrite Htr. }
  assert (∀ q c, q ∉ gone → c ∉ gone → c ∈ childrenOf T q → c ∈ childrenOf T' q) as Hkeep.
  { intros q c Hq Hc Hin. unfold childrenOf in *. rewrite Hch by done.
    destruct (decide (q = p0)) as [->|?]; [|done].
    destruct (children T !! p0) as [l|]; simpl in *; [|done].
    apply list_elem_of_filter. split; [|done]. by intros ->. }
  apply valid_iff. split.
  - apply wellFormed_intro.
    + change (rootRef T') with (rootRef T). rewrite Hpo by done.
      by apply wellFormed_root_parent.
    + change (rootRef T') with (rootRef T). rewrite Htr by done.
      by apply wellFormed_root.
    + intros x t' Hx. destruct (decide (x ∈ gone)) as [Hg|Hg];
        [by rewrite Htr_gone in Hx|].
      rewrite Htr in Hx by done.
      destruct (wellFormed_node T x t' Hw Hx) as [? Hm']. split; [done|].
      destruct (parent t') as [q|] eqn:Hq; [|done].
      apply Hkeep; [|done|done]. apply (Hup x q Hg). unfold parentOf. by rewrite Hx.
    + intros q l Hl. destruct (decide (q ∈ gone)) as [Hg|Hg];
        [by rewrite Hch_gone in Hl|].
      rewrite Hch in Hl by done.
      assert (∃ l0, children T !! q = Some l0 ∧ NoDup l ∧
                    ∀ c, c ∈ l → c ∈ l0 ∧ (q = p0 → c ≠ r)) as (l0 & Hl0 & Hnd & Hsub).
      { destruct (decide (q = p0)) as [->|Hq0].
        - destruct (children T !! p0) as [l0|] eqn:E; [|done].
          injection Hl as <-. exists l0. split; [done|].
          destruct (wellFormed_children T p0 l0 Hw E) as (_ & ? & _).
          split; [by apply NoDup_filter|].
          intros c [? ?]%list_elem_of_filter. done.
        - exists l. split; [done|].
          destruct (wellFormed_children T q l Hw Hl) as (_ & ? & _). done. }
      destruct (wellFormed_children T q l0 Hw Hl0) as (Hq & _ & Hall).
      split; [by rewrite Htr|]. split; [done|].
      intros c Hc. destruct (Hsub c Hc) as [Hc0 Hcr].
      assert (c ∉ gone) as Hcg.
      { intros Hcg. pose proof (Hdown c q Hcg (Hall c Hc0) Hg) as ->.
        apply Hcr; [|done]. specialize (Hall r Hc0). congruence. }
      rewrite Hpo by done. by apply Hall.
    + intros x [t' Hx]. destruct (decide (x ∈ gone)) as [Hg|Hg];
        [by rewrite Htr_gone in Hx|].
      rewrite Htr in Hx by done.
      destruct (wellFormed_entry T x Hw) as [l Hl]; [by eauto|].
      rewrite Hch, Hl by done. destruct (decide (x = p0)); simpl; eauto.
  - assert (∀ k x, x ∉ gone → x ∈ level T k → x ∈ level T' k) as Hlevel.
    { induction k as [|k IH]; intros x Hx; simpl; [done|].
      intros (q & Hxq & Hq)%list_elem_of_bind.
      assert (q ∉ gone) as Hqg
        by (apply (Hup x q Hx); by apply childrenOf_parent).
      apply list_elem_of_bind. exists q. split; [by apply Hkeep|by apply IH]. }
    intros x [t' Hx]. destruct (decide (x ∈ gone)) as [Hg|Hg];
      [by rewrite Htr_gone in Hx|].
    rewrite Htr in Hx by done.
    apply valid_iff in Hv as [_ Hreach].
    destruct (Hreach x) as [k Hk]; [by eauto|]. exists k. by apply Hlevel.
Qed.

(** A node moved under a node outside its subtree stays below the root,
    with its descendants; the other nodes keep their depth. *)
Lemma reparent_valid b r p b' :
  valid (tree b) → reparent b r p = inr b' → valid (tree b').
Proof.
  intros Hv. unfold reparent.
  destruct (bool_decide (p = r) || bool_decide (p ∈ subtreeRefs (tree b) r)) eqn:Hcyc;
    [done|].
  apply orb_false_iff in Hcyc as [Hpr%bool_decide_eq_false Hpg%bool_decide_eq_false].
  destruct (transforms (tree b) !! r) as [t|] eqn:Ht; [|done].
  destruct (transforms (tree b) !! p) as [tp|] eqn:Htp; [|done].
  destruct (parent t) as [old|] eqn:Hold; [|done].
  intros [= <-]. simpl. set (T := tree b) in *.
  pose proof (valid_wellFormed T Hv) as Hw.
  set (gone := subtreeRefs T r) in *.
  assert (∀ x, x ∈ gone ↔ x = r ∨ descendant T x r) as Hgone
    by (intros x; apply elem_of_subtreeRefs; eauto).
  assert (parentOf T r = Some old) as Hro by (unfold parentOf; by rewrite Ht).
  assert (∀ x q, x ∉ gone → parentOf T x = Some q → q ∉ gone) as Hup.
  { intros x q Hx Hq [->|Hd]%Hgone; apply Hx, Hgone; right.
    - by apply descendant_child.
    - by eapply descendant_below. }
  assert (rootRef T ≠ r) as Hroot.
  { intros E. rewrite <- E, wellFormed_root_parent in Hro; done. }
  match goal with |- valid ?T0 => set (T' := T0) end.
  assert (∀ x, is_Some (transforms T' !! x) ↔ is_Some (transforms T !! x)) as Hdom.
  { intros x. subst T'. simpl. destruct (decide (r = x)) as [<-|Hx].
    - rewrite lookup_insert_eq, Ht. split; eauto.
    - by rewrite lookup_insert_ne. }
  assert (∀ x, x ≠ r → parentOf T' x = parentOf T x) as Hpo.
  { intros x Hx. unfold parentOf. subst T'. simpl. by rewrite lookup_insert_ne. }
  assert (parentOf T' r = Some p) as Hpn.
  { unfold parentOf. subst T'. simpl. by rewrite lookup_insert_eq. }
  set (base := λ q, if decide (q = old) then filter (λ c, c ≠ r) (childrenOf T q)
                    else childrenOf T q).
  assert (∀ q, alter (filter (λ c, c ≠ r)) old (children T) !! q
               = (λ l, if decide (q = old) then filter (λ c, c ≠ r) l else l)
                   <$> children T !! q) as Hdet.
  { intros q. destruct (decide (q = old)) as [->|Hq].
    - rewrite lookup_alter_eq. by destruct (children T !! old).
    - rewrite lookup_alter_ne by done. by destruct (children T !! q). }
  assert (∀ q, childrenOf T' q = if decide (q = p) then base q ++ [r] else base q) as Hco.
  { intros q. unfold childrenOf at 1. subst T'. simpl.
    destruct (decide (q = p)) as [->|Hq].
    - rewrite lookup_insert_eq. simpl. rewrite Hdet. unfold base, childrenOf.
      destruct (children T !! p); simpl; by destruct (decide (p = old)).
    - rewrite lookup_insert_ne by done. rewrite Hdet. unfold base, childrenOf.
      destruct (children T !! q); simpl; by destruct (decide (q = old)). }
  assert (∀ q c, c ∈ base q ↔ c ∈ childrenOf T q ∧ c ≠ r) as Hbase.
  { intros q c. unfold base. destruct (decide (q = old)) as [->|Hq].
    - rewrite list_elem_of_filter. tauto.
    - split; [|tauto]. intros Hc. split; [done|]. intros ->.
      apply (childrenOf_parent T q r Hw) in Hc. congruence. }
  assert (∀ q c, c ∈ childrenOf T q → c ≠ r → c ∈ childrenOf T' q) as Hkeep.
  { intros q c Hc Hcr. rewrite Hco.
    destruct (decide (q = p)); [apply elem_of_app; left|]; by apply Hbase. }
  assert (NoDup_base : ∀ q, NoDup (base q)).
  { intros q. unfold base. destruct (decide (q = old));
      [apply NoDup_filter|]; by apply childrenOf_NoDup. }
  apply valid_iff. split.
  - apply wellFormed_intro.
    + change (rootRef T') with (rootRef T). rewrite Hpo by done.
      by apply wellFormed_root_parent.
    + apply Hdom. change (rootRef T') with (rootRef T). by apply wellFormed_root.
    + intros x t'. subst T'. simpl. destruct (decide (r = x)) as [<-|Hx].
      * rewrite lookup_insert_eq. intros [= <-]. simpl.
        destruct (wellFormed_node T r t Hw Ht) as [? _]. split; [done|].
        rewrite Hco, decide_True by done. apply elem_of_app. right. left.
      * rewrite lookup_insert_ne by done. intros Hx'.
        destruct (wellFormed_node T x t' Hw Hx') as [? Hm]. split; [done|].
        destruct (parent t'); [|done]. apply Hkeep; [done|by intros ->].
    + intros q l Hl.
      assert (is_Some (transforms T !! q)) as Hq.
      { subst T'. simpl in Hl. destruct (decide (p = q)) as [<-|Hq]; [by eauto|].
        rewrite lookup_insert_ne in Hl by done. rewrite Hdet in Hl.
        destruct (children T !! q) as [l0|] eqn:E; [|done].
        by destruct (wellFormed_children T q l0 Hw E) as (? & _). }
      assert (l = childrenOf T' q) as -> by (unfold childrenOf; by rewrite Hl).
      split; [by apply Hdom|]. rewrite Hco.
      assert (∀ c, c ∈ base q → parentOf T' c = Some q) as Hall.
      { intros c [Hc Hcr]%Hbase. rewrite Hpo by done. by apply childrenOf_parent. }
      destruct (decide (q = p)) as [->|Hqp]; [|by split].
      split.
      * apply NoDup_app. split; [done|]. split; [|apply NoDup_singleton].
        intros c [_ Hcr]%Hbase ->%list_elem_of_singleton. done.
      * intros c [Hc| ->%list_elem_of_singleton]%elem_of_app; [by apply Hall|done].
    + intros x Hx%Hdom. apply (wellFormed_entry T x Hw) in Hx as [l Hl].
      subst T'. simpl. destruct (decide (p = x)) as [<-|Hpx].
      * rewrite lookup_insert_eq. eauto.
      * rewrite lookup_insert_ne by done. rewrite Hdet, Hl. simpl. eauto.
  - pose proof (proj1 (valid_iff T) Hv) as [_ Hreach].
    assert (∀ k x, x ∉ gone → x ∈ level T k → x ∈ level T' k) as Hlevel.
    { induction k as [|k IH]; intros x Hx; simpl; [done|].
      intros (q & Hxq & Hq)%list_elem_of_bind.
      assert (q ∉ gone) as Hqg
        by (apply (Hup x q Hx); by apply childrenOf_parent).
      apply list_elem_of_bind. exists q. split; [|by apply IH].
      apply Hkeep; [done|]. intros ->. apply Hx, Hgone. by left. }
    assert (∃ k, r ∈ level T' k) as [kr Hkr].
    { destruct (Hreach p) as [k Hk]; [by eauto|]. exists (S k). simpl.
      apply list_elem_of_bind. exists p. split; [|by apply Hlevel].
      rewrite Hco, decide_True by done. apply elem_of_app. right. left. }
    assert (∀ x, descendant T x r → ∃ k, x ∈ level T' k) as Hbelow.
    { intros x Hd.
      assert (∀ y, descendant T y r → y ≠ r) as Hne
        by (intros y Hy ->; by apply (descendant_irrefl T r Hv)).
      induction Hd as [d r0 Hp|d q r0 Hp Hq IH].
      - exists (S kr). simpl. apply list_elem_of_bind. exists r0. split; [|done].
        apply Hkeep; [by apply parentOf_childrenOf|].
        apply Hne. by apply descendant_child.
      - destruct IH as [k Hk]; try done. exists (S k). simpl.
        apply list_elem_of_bind. exists q. split; [|done].
        apply Hkeep; [by apply parentOf_childrenOf|].
        apply Hne. by eapply descendant_below. }
    intros x Hx%Hdom. destruct (decide (x ∈ gone)) as [[->|Hd]%Hgone|Hg].
    + eauto.
    + by apply Hbelow.
    + destruct (Hreach x Hx) as [k Hk]. exists k. by apply Hlevel.
Qed.

Lemma applyEdit_valid b e b' :
  valid (tree b) → applyEdit accepts produces b e = inr b' → valid (tree b').
Proof.
  intros Hv. destruct e as [parentRef kind p explicitRef|r p|r|r p]; simpl.
  - by apply applyTransform_valid.
  - by apply updateParams_valid.
  - intros [= <-]. by apply delete_valid.
  - by apply reparent_valid.
Qed.

Lemma applyEdits_valid edits b b' :
  valid (tree b) → applyEdits accepts produces b edits = inr b' → valid (tree b').
Proof.
  revert b. induction edits as [|e edits IH]; intros b Hv; simpl.
  - by intros [= <-].
  - destruct (applyEdit accepts produces b e) as [err|b1] eqn:He; [done|].
    apply IH. by eapply applyEdit_valid.
Qed.

(** What a commit on a valid tree gives is a valid tree. *)
Lemma commit_valid T edits T' summary :
  valid T → commit accepts produces T edits = inr (T', summary) → valid T'.
Proof.
  intros Hv. unfold commit.
  destruct (applyEdits _ _ _ edits) as [err|b'] eqn:Hrun; [done|].
  intros [= <- _].
  by apply (applyEdits_valid edits {| tree := T; changes := noChanges |} b').
Qed.

End Builder.
End BuilderFacts.

(** ** Reconciliation *)

Module StateFacts.
Import StateTree Transformer State TreeFacts.

Section State.
Context {Kind Params ObjType Obj Err : Type} `{!EqDecision ObjType}.
Variable definition : Kind → Definition_ ObjType Obj Params Err.
Variable rootType : ObjType.
Implicit Types (T oldTree newTree : StateTree Kind Params) (run : Run Obj Err)
  (r p d : Ref) (c : Cell Obj Err) (summary : Builder.ChangeSummary).


(** *** One visit writes one cell *)

Lemma forcePending_cells now run r v :
  ∃ c, run_cells (forcePending now run r v) = <[r := c]> (run_cells run) ∧
       status c = pending.
Proof. unfold forcePending. destruct (run_cells run !! r); simpl; eauto. Qed.

Lemma applyCell_cells run r k params parentObj v id :
  ∃ c, run_cells (applyCell definition run r k params parentObj v id)
       = <[r := c]> (run_cells run) ∧ (status c = ok ∨ status c = error).
Proof. unfold applyCell. destruct (apply _ _ _); simpl; eauto. Qed.

Lemma recompute_cells now oldTree run r k params parentObj v :
  ∃ c, run_cells (recompute definition now oldTree run r k params parentObj v)
       = <[r := c]> (run_cells run) ∧ (status c = ok ∨ status c = error).
Proof.
  unfold recompute. destruct (run_cells run !! r) as [c|]; [|apply applyCell_cells].
  destruct (obj c) as [b|]; [|apply applyCell_cells].
  destruct (update _ _ _ _ _) as [e|[[| |] b']]; simpl; eauto.
  edestruct applyCell_cells as (c' & -> & Hc'). exists c'. simpl.
  by rewrite insert_delete_eq.
Qed.

Lemma visit_cells now oldTree newTree summary run r :
  run_cells (visit definition now oldTree newTree summary run r) = run_cells run ∨
  ∃ c, run_cells (visit definition now oldTree newTree summary run r)
       = <[r := c]> (run_cells run).
Proof.
  unfold visit. destruct (transforms newTree !! r) as [t|]; [|by left].
  destruct (parent t) as [p|]; [|by left].
  destruct (run_cells run !! p) as [pc|].
  - destruct (status pc), (obj pc).
    all: try (right; edestruct forcePending_cells as (c & -> & _); by eauto).
    destruct (transformer t) as [k|]; [|by left].
    destruct (stale _ _ _ _); [|by left].
    right. edestruct recompute_cells as (c & -> & _). eauto.
  - right. edestruct forcePending_cells as (c & -> & _). eauto.
Qed.

Lemma visit_frame now oldTree newTree summary run r x :
  x ≠ r →
  run_cells (visit definition now oldTree newTree summary run r) !! x = run_cells run !! x.
Proof.
  intros Hne. destruct (visit_cells now oldTree newTree summary run r) as [->|(c & ->)];
    [done|]. by rewrite lookup_insert_ne.
Qed.


(** *** A property that each visit sets up holds at the end

    [Φ r cp cr] relates the cell [cp] of the parent of [r] and the cell
    [cr] of [r]. *)
Section Established.
Variables (now : nat) (oldTree newTree : StateTree Kind Params)
  (summary : Builder.ChangeSummary).
Variable Φ : Ref → option (Cell Obj Err) → option (Cell Obj Err) → Prop.
Hypothesis Hvalid : valid newTree.
Hypothesis Hvisit : ∀ run r p,
  parentOf newTree r = Some p → p ≠ r →
  Φ r (run_cells run !! p)
      (run_cells (visit definition now oldTree newTree summary run r) !! r).





End Established.

(** *** The short-circuit rule *)






(** *** A visit reads the cell of the node and of its parent only *)

Lemma forcePending_changed now run r v :
  run_changed (forcePending now run r v) = run_changed run.
Proof. unfold forcePending. by destruct (run_cells run !! r). Qed.

Lemma forcePending_local now run run' r v :
  run_cells run !! r = run_cells run' !! r →
  run_cells (forcePending now run r v) !! r = run_cells (forcePending now run' r v) !! r.
Proof.
  intros Hr. unfold forcePending. rewrite Hr.
  destruct (run_cells run' !! r); simpl; by rewrite !lookup_insert_eq.
Qed.

Lemma applyCell_local run run' r k params parentObj v id :
  (r ∈ run_changed run ↔ r ∈ run_changed run') →
  run_cells (applyCell definition run r k params parentObj v id) !! r
  = run_cells (applyCell definition run' r k params parentObj v id) !! r ∧
  (r ∈ run_changed (applyCell definition run r k params parentObj v id) ↔
   r ∈ run_changed (applyCell definition run' r k params parentObj v id)).
Proof.
  intros Hch. unfold applyCell. destruct (apply _ _ _); simpl;
    rewrite !lookup_insert_eq; (split; [done|]); [done|set_solver].
Qed.

Lemma recompute_local now oldTree run run' r k params parentObj v :
  run_cells run !! r = run_cells run' !! r →
  (r ∈ run_changed run ↔ r ∈ run_changed run') →
  run_cells (recompute definition now oldTree run r k params parentObj v) !! r
  = run_cells (recompute definition now oldTree run' r k params parentObj v) !! r ∧
  (r ∈ run_changed (recompute definition now oldTree run r k params parentObj v) ↔
   r ∈ run_changed (recompute definition now oldTree run' r k params parentObj v)).
Proof.
  intros Hr Hch. unfold recompute. rewrite Hr.
  destruct (run_cells run' !! r) as [c|]; [|by apply applyCell_local].
  destruct (obj c) as [b|]; [|by apply applyCell_local].
  destruct (update _ _ _ _ _) as [e|[[| |] b']]; simpl;
    rewrite ?lookup_insert_eq; try (split; [done|set_solver]).
  by apply applyCell_local.
Qed.

Lemma visit_changed now oldTree newTree summary run r x :
  x ≠ r →
  x ∈ run_changed (visit definition now oldTree newTree summary run r) ↔
  x ∈ run_changed run.
Proof.
  intros Hne. unfold visit.
  destruct (transforms newTree !! r) as [t|]; [|done].
  destruct (parent t) as [p|]; [|done].
  destruct (run_cells run !! p) as [pc|]; [|by rewrite forcePending_changed].
  destruct (status pc), (obj pc); try by rewrite forcePending_changed.
  destruct (transformer t) as [k|]; [|done].
  destruct (stale _ _ _ _); [|done].
  unfold recompute, applyCell.
  destruct (run_cells run !! r) as [c|]; [destruct (obj c) as [b|]|].
  - destruct (update _ _ _ _ _) as [e|[[| |] b']]; simpl; try set_solver.
    destruct (apply _ _ _); simpl; set_solver.
  - destruct (apply _ _ _); simpl; set_solver.
  - destruct (apply _ _ _); simpl; set_solver.
Qed.

(** *** Rejected transactions *)

Lemma applyEdits_app (b : Builder.Builder Kind Params) pre post :
  Builder.applyEdits (accepts definition) (produces definition rootType) b (pre ++ post)
  = match Builder.applyEdits (accepts definition) (produces definition rootType) b pre with
    | inl err => inl err
    | inr b' =>
        Builder.applyEdits (accepts definition) (produces definition rootType) b' post
    end.
Proof.
  revert b. induction pre as [|e pre IH]; intros b; simpl; [done|].
  by destruct (Builder.applyEdit _ _ b e).
Qed.

(** A transaction that does not commit leaves the state as it was. *)
Lemma transaction_rejected (s : State Kind Params Obj Err) edits err :
  Builder.commit (accepts definition) (produces definition rootType) (tree s) edits
    = inl err →
  transaction definition rootType s edits = (s, inl err).
Proof. intros Hc. unfold transaction. by rewrite Hc. Qed.

(** A transaction, accepted or rejected, leaves a valid tree valid. *)
Lemma transaction_valid (s : State Kind Params Obj Err) edits :
  valid (tree s) → valid (tree (transaction definition rootType s edits).1).
Proof.
  intros Hv. unfold transaction.
  destruct (Builder.commit _ _ (tree s) edits) as [err|[newTree summary]] eqn:Hc;
    [done|].
  destruct (reconcile definition s newTree summary) as [s' events] eqn:Hr.
  unfold reconcile in Hr. injection Hr as <- _. simpl.
  exact (BuilderFacts.commit_valid (accepts definition)
           (produces definition rootType) (tree s) edits newTree summary Hv Hc).
Qed.

(** [reparent(r, p)] closes a cycle in the tree [T]: [p] is [r], or is
    listed in the subtree of [r], or, [T] being valid, is a descendant
    of [r]. *)
Definition closesCycle T r p : Prop :=
  p = r ∨ p ∈ subtreeRefs T r ∨ (valid T ∧ descendant T p r).

Lemma reparent_cycle (b : Builder.Builder Kind Params) r p :
  closesCycle (Builder.tree b) r p → Builder.reparent b r p = inl Builder.Cycle.
Proof.
  intros Hcycle. unfold Builder.reparent.
  destruct Hcycle as [->|[Hin|[Hv Hd]]].
  - by rewrite bool_decide_eq_true_2.
  - rewrite (bool_decide_eq_true_2 (p ∈ _)) by done. by rewrite orb_true_r.
  - rewrite (bool_decide_eq_true_2 (p ∈ _)) by (by apply descendant_subtreeRefs).
    by rewrite orb_true_r.
Qed.

(** C7. On every tree, [reparent(r, p)] that closes a cycle fails with
    [Cycle]. A transaction that holds such an edit, closing a cycle in the
    working tree the edits before it built, does not commit, and returns
    the state it was given; the error is [Cycle] when the edits before it
    pass. *)
Theorem reparent_cycle_rejected (s : State Kind Params Obj Err)
    (pre post : list (Builder.Edit Kind Params)) r p :
  (∀ b, Builder.applyEdits (accepts definition) (produces definition rootType)
          {| Builder.tree := tree s; Builder.changes := Builder.noChanges |} pre = inr b →
        closesCycle (Builder.tree b) r p) →
  (∀ b, closesCycle (Builder.tree b) r p → Builder.reparent b r p = inl Builder.Cycle) ∧
  ∃ err,
    Builder.commit (accepts definition) (produces definition rootType) (tree s)
      (pre ++ Builder.Reparent r p :: post) = inl err ∧
    transaction definition rootType s (pre ++ Builder.Reparent r p :: post)
      = (s, inl err) ∧
    ((∃ b, Builder.applyEdits (accepts definition) (produces definition rootType)
             {| Builder.tree := tree s; Builder.changes := Builder.noChanges |} pre
           = inr b) →
     err = Builder.Cycle).
Proof.
  intros Hcycle. split; [intros b; apply reparent_cycle|].
  destruct (Builder.applyEdits (accepts definition) (produces definition rootType)
              {| Builder.tree := tree s; Builder.changes := Builder.noChanges |} pre)
    as [err|b] eqn:Hpre.
  - assert (Builder.commit (accepts definition) (produces definition rootType) (tree s)
              (pre ++ Builder.Reparent r p :: post) = inl err) as Hcommit.
    { unfold Builder.commit. by rewrite applyEdits_app, Hpre. }
    exists err. split; [done|]. split; [by apply transaction_rejected|].
    intros [b Hb]. discriminate Hb.
  - assert (Builder.commit (accepts definition) (produces definition rootType) (tree s)
              (pre ++ Builder.Reparent r p :: post) = inl Builder.Cycle) as Hcommit.
    { unfold Builder.commit. rewrite applyEdits_app, Hpre. simpl.
      by rewrite (reparent_cycle b r p (Hcycle b eq_refl)). }
    exists Builder.Cycle. split; [done|]. split; [by apply transaction_rejected|done].
Qed.

End State.

(** *** What a failure cannot reach

    Two registries are compared on one reconciliation: the cells of the
    nodes that have, from the root down to themselves, only transformers
    on which the registries agree are the same. A transformer that fails
    in one and not in the other makes no difference to them. *)
Section Localized.
Context {Kind Params ObjType Obj Err : Type}.
Variables definition definition' : Kind → Definition_ ObjType Obj Params Err.
Variables (now : nat) (oldTree newTree : StateTree Kind Params)
  (summary : Builder.ChangeSummary).
Variable clean : Ref → Prop.
Hypothesis Hclosed : ∀ r p, clean r → parentOf newTree r = Some p → clean p.
Hypothesis Hsame : ∀ r t k,
  clean r → transforms newTree !! r = Some t → transformer t = Some k →
  definition k = definition' k.
Implicit Types (run : Run Obj Err) (r p x : Ref).

(** The two runs agree on the clean nodes. *)
Definition agree run run' : Prop :=
  ∀ x, clean x →
    run_cells run !! x = run_cells run' !! x ∧
    (x ∈ run_changed run ↔ x ∈ run_changed run').

Lemma recompute_ext run r k params parentObj v :
  definition k = definition' k →
  recompute definition now oldTree run r k params parentObj v
  = recompute definition' now oldTree run r k params parentObj v.
Proof. intros Hk. unfold recompute, applyCell. by rewrite Hk. Qed.

Lemma visit_local run run' r :
  clean r → agree run run' →
  run_cells (visit definition now oldTree newTree summary run r) !! r
  = run_cells (visit definition' now oldTree newTree summary run' r) !! r ∧
  (r ∈ run_changed (visit definition now oldTree newTree summary run r) ↔
   r ∈ run_changed (visit definition' now oldTree newTree summary run' r)).
Proof.
  intros Hr Hag. destruct (Hag r Hr) as [Hcell Hch]. unfold visit.
  destruct (transforms newTree !! r) as [t|] eqn:Ht; [|done].
  destruct (parent t) as [p|] eqn:Hp; [|done].
  assert (clean p) as Hcp.
  { apply (Hclosed r p Hr). unfold parentOf. by rewrite Ht. }
  destruct (Hag p Hcp) as [Hpcell Hpch]. rewrite Hpcell.
  assert (∀ v,
    run_cells (forcePending now run r v) !! r = run_cells (forcePending now run' r v) !! r ∧
    (r ∈ run_changed (forcePending now run r v) ↔
     r ∈ run_changed (forcePending now run' r v))) as Hforce.
  { intros v. split; [by apply forcePending_local|by rewrite !forcePending_changed]. }
  destruct (run_cells run' !! p) as [pc|]; [|apply Hforce].
  destruct (status pc), (obj pc) as [parentObj|]; try apply Hforce.
  destruct (transformer t) as [k|] eqn:Hk; [|done].
  assert (stale summary run r p = stale summary run' r p) as ->.
  { unfold stale. rewrite Hcell. f_equal. f_equal. by apply bool_decide_ext. }
  destruct (stale summary run' r p); [|done].
  rewrite <- (recompute_ext run' r k _ _ _ (Hsame r t k Hr Ht Hk)).
  by apply recompute_local.
Qed.

Lemma visit_agree run run' r :
  agree run run' →
  agree (visit definition now oldTree newTree summary run r)
        (visit definition' now oldTree newTree summary run' r).
Proof.
  intros Hag x Hx. destruct (decide (x = r)) as [->|Hne].
  - by apply visit_local.
  - rewrite !visit_frame by done. rewrite !visit_changed by done. by apply Hag.
Qed.

Lemma fold_visit_agree l run run' :
  agree run run' →
  agree (fold_left (visit definition now oldTree newTree summary) l run)
        (fold_left (visit definition' now oldTree newTree summary) l run').
Proof.
  revert run run'. induction l as [|r l IH]; intros run run' Hag; [done|].
  simpl. apply IH. by apply visit_agree.
Qed.

End Localized.

(** After a reconciliation, under either of two registries: a node has the
    same cell if the registries agree on its transformer and on those of
    its ancestors. *)
Lemma reconcile_localized {Kind Params ObjType Obj Err : Type}
    (definition definition' : Kind → Definition_ ObjType Obj Params Err)
    (s : State Kind Params Obj Err) (newTree : StateTree Kind Params)
    (summary : Builder.ChangeSummary) (clean : Ref → Prop) :
  (∀ r p, clean r → parentOf newTree r = Some p → clean p) →
  (∀ r t k, clean r → transforms newTree !! r = Some t → transformer t = Some k →
     definition k = definition' k) →
  ∀ x, clean x →
    cells (reconcile definition s newTree summary).1 !! x
    = cells (reconcile definition' s newTree summary).1 !! x.
Proof.
  intros Hclosed Hsame x Hx. unfold reconcile. simpl.
  by apply (fold_visit_agree definition definition' (serial s) (tree s) newTree summary
              clean Hclosed Hsame (byDepth newTree)).
Qed.

(** *** When a node is visited *)
Section Unfolding.
Context {Kind Params ObjType Obj Err : Type}.
Variable definition : Kind → Definition_ ObjType Obj Params Err.
Variables (now : nat) (oldTree newTree : StateTree Kind Params)
  (summary : Builder.ChangeSummary).
Hypothesis Hvalid : valid newTree.
Implicit Types (run : Run Obj Err) (r p x : Ref).

Local Abbreviation visitAll := (fold_left (visit definition now oldTree newTree summary)).








End Unfolding.

(** *** Two reconciliations that agree on a part of the tree *)
Section TwoWorlds.
Context {Kind Params ObjType Obj Err : Type}.
Variables definition definition' : Kind → Definition_ ObjType Obj Params Err.
Variables (now : nat) (oldTree newTree newTree' : StateTree Kind Params)
  (summary summary' : Builder.ChangeSummary).
Variable clean : Ref → Prop.
Hypothesis Hvalid : valid newTree.
Hypothesis Hvalid' : valid newTree'.
Hypothesis Hclosed : ∀ r p, clean r → parentOf newTree r = Some p → clean p.
Hypothesis Htree : ∀ r, clean r → transforms newTree' !! r = transforms newTree !! r.
Hypothesis Hadded : ∀ r, clean r →
  (r ∈ Builder.added summary' ↔ r ∈ Builder.added summary).
Hypothesis Hupdated : ∀ r, clean r →
  (r ∈ Builder.updated summary' ↔ r ∈ Builder.updated summary).
Hypothesis Hsame : ∀ r t k,
  clean r → transforms newTree !! r = Some t → transformer t = Some k →
  definition k = definition' k.
Implicit Types (run : Run Obj Err) (r p x : Ref).




End TwoWorlds.

(** *** Reconciliations *)
Section Reconciled.
Context {Kind Params ObjType Obj Err : Type}.
Implicit Types (s : State Kind Params Obj Err) (newTree : StateTree Kind Params)
  (summary : Builder.ChangeSummary) (r p x : Ref).










End Reconciled.

Section Propagation.
Context {Kind Params ObjType Obj Err : Type}.
Variable definition : Kind → Definition_ ObjType Obj Params Err.
Implicit Types (newTree : StateTree Kind Params) (r p d : Ref)
  (summary : Builder.ChangeSummary).


End Propagation.

End StateFacts.

(** ** The example: a square and its area *)

Module Scenario.
Import StateTree Transformer Shapes TreeFacts.


Definition State := State.State Kind Params StateObject Error.
Definition Edit := Builder.Edit Kind Params.

(** [State.update] of the example: a transaction over the registry of the
    three transformers, the root object being a [Root]. *)
Definition transaction (s : State) (edits : list Edit)
    : State * (Builder.StructuralError + list State.Event) :=
  State.transaction definition Root s edits.

(** [State.create(new Root({ label: 'Root' }, { }))] *)
Definition state0 : State :=
  State.create "R" (NewRoot {| label := Text "Root" |}) NoParams.

(** [.apply(CreateSquare, { a: 10 }, { ref })] then [.apply(CaclArea)]. *)
Definition build1 : list Edit :=
  [Builder.ApplyTransform "R" CreateSquare (SquareParams {| a := 10 |}) (Some "sq");
   Builder.ApplyTransform "sq" CaclArea NoParams None].

(** [StateTree.updateParams(tree1, ref, { a: 15 })] *)
Definition build2 : list Edit :=
  [Builder.UpdateParams "sq" (SquareParams {| a := 15 |})].

Definition state1 : State := (transaction state0 build1).1.
Definition state2 : State := (transaction state1 build2).1.

(** The object of a cell, if the cell is [ok]. *)
Definition okObject (s : State) (r : Ref) : option StateObject :=
  c ← State.cells s !! r;
  match State.status c with
  | State.ok => State.obj c
  | _ => None
  end.

(** C1. The square of side 10 and its area are computed, 10 and 100; after
    the side is set to 15 the same two cells hold 15 and 225, and the
    reconciliation emits one [updated] event for each and nothing else. *)
Theorem square_area_scenario :
  ∃ area : Ref,
    children (State.tree state1) !! "sq" = Some [area] ∧
    (transaction state0 build1).2 = inr [State.cellCreated "sq"; State.cellCreated area] ∧
    okObject state1 "sq"
      = Some (NewSquare {| label := Template "Square a=" 10 |} {| a := 10 |}) ∧
    okObject state1 area
      = Some (NewArea {| label := Text "Area" |} {| volume := 100 |}) ∧
    (transaction state1 build2).2 = inr [State.cellUpdated "sq"; State.cellUpdated area] ∧
    okObject state2 "sq"
      = Some (NewSquare {| label := Template "Square a=" 15 |} {| a := 15 |}) ∧
    okObject state2 area
      = Some (NewArea {| label := Text "Area" |} {| volume := 225 |}) ∧
    (State.createdIn <$> State.cells state2 !! "sq")
      = (State.createdIn <$> State.cells state1 !! "sq") ∧
    (State.createdIn <$> State.cells state2 !! area)
      = (State.createdIn <$> State.cells state1 !! area) ∧
    dom (State.cells state2) = {[ "R"; "sq"; area ]}.
Proof. exists "0". vm_compute. repeat split. Qed.

Lemma state2_valid : valid (State.tree state2).
Proof. apply (@bool_decide_unpack _ (valid_dec _)). vm_compute. exact I. Qed.

Lemma state1_valid : valid (State.tree state1).
Proof. apply (@bool_decide_unpack _ (valid_dec _)). vm_compute. exact I. Qed.

(** The tree of the example after the update, saved and loaded: the
    square's node comes back at version 0. *)
Lemma serialization_round_trip_witness :
  fromSerializable (toSerializable (State.tree state2)) = resetVersions (State.tree state2) ∧
  (version <$> transforms (State.tree state2) !! "sq") = Some 1 ∧
  (version <$> transforms (fromSerializable (toSerializable (State.tree state2))) !! "sq")
    = Some 0.
Proof.
  destruct (serialization_round_trip (State.tree state2) state2_valid) as (Heq & _).
  split; [exact Heq|]. split; [reflexivity|]. rewrite Heq. reflexivity.
Defined.

(** The update of the example leaves the children map and the area's node
    as they were. *)
Lemma updateParams_ref_stability_witness :
  ∃ T' summary,
    Builder.commit (State.accepts definition) (State.produces definition Root)
      (State.tree state1) build2 = inr (T', summary) ∧
    children T' = children (State.tree state1) ∧
    transforms T' !! "0" = transforms (State.tree state1) !! "0" ∧
    (version <$> transforms (State.tree state1) !! "sq") = Some 0 ∧
    (version <$> transforms T' !! "sq") = Some 1.
Proof.
  destruct (BuilderFacts.updateParams_ref_stability
              (State.accepts definition) (State.produces definition Root)
              (State.tree state1) [("sq", SquareParams {| a := 15 |})])
    as (T' & summary & Hcommit & _ & Hch & Hother & _ & Hupd & _).
  { intros u Hu. apply list_elem_of_singleton in Hu. subst u. vm_compute. eauto. }
  exists T', summary. split; [exact Hcommit|]. split; [exact Hch|]. split.
  - apply Hother. vm_compute. intros Hin. apply list_elem_of_singleton in Hin.
    discriminate Hin.
  - split; [reflexivity|]. vm_compute in Hcommit. injection Hcommit as <- _.
    reflexivity.
Defined.

(** Moving the square under its own area is rejected, after an update of
    its parameters in the same transaction. *)
Lemma reparent_cycle_rejected_witness :
  transaction state1 (build2 ++ [Builder.Reparent "sq" "0"]) = (state1, inl Builder.Cycle).
Proof.
  destruct (StateFacts.reparent_cycle_rejected definition Root state1 build2 [] "sq" "0")
    as (_ & err & _ & Hrejected & Herr).
  - intros b Hb. vm_compute in Hb. injection Hb as <-.
    right. left. vm_compute. right. left.
  - rewrite Herr in Hrejected; [exact Hrejected|]. eexists. vm_compute. reflexivity.
Defined.

End Scenario.

(** ** A transformer that can fail *)

Module Retry.
Import StateTree Transformer TreeFacts.

(** Three transformers over numbers: [Source] produces its parameter,
    [Positive] passes its parent's number on unless it is 0, where it
    throws, and [Copy] passes its parent's number on. *)
Inductive Kind := Source | Positive | Copy.

Definition definition (k : Kind) : Definition_ unit nat nat unit :=
  match k with
  | Source =>
      {| name := "source"; from := [()]; to := [()];
         apply := λ _ p, inr p;
         update := λ _ _ _ p, inr (Updated, p) |}
  | Positive =>
      {| name := "positive"; from := [()]; to := [()];
         apply := λ parentObj _,
           match parentObj with 0 => inl () | S _ => inr parentObj end;
         update := λ parentObj _ _ _,
           match parentObj with 0 => inl () | S _ => inr (Updated, parentObj) end |}
  | Copy =>
      {| name := "copy"; from := [()]; to := [()];
         apply := λ parentObj _, inr parentObj;
         update := λ parentObj _ _ _, inr (Updated, parentObj) |}
  end.

Definition State := State.State Kind nat nat unit.

Definition state0 : State := State.create "R" 0 0.

(** [src] produces 0, so [pos] fails, and [leaf] under it is not tried. *)
Definition edits1 : list (Builder.Edit Kind nat) :=
  [Builder.ApplyTransform "R" Source 0 (Some "src");
   Builder.ApplyTransform "src" Positive 0 (Some "pos");
   Builder.ApplyTransform "pos" Copy 0 (Some "leaf")].

Definition state1 : State := (State.transaction definition () state0 edits1).1.

(** The parameter of [src] becomes 1; [pos] is not touched by the edit. *)
Definition state2 : State :=
  (State.transaction definition () state1 [Builder.UpdateParams "src" 1]).1.


















End Retry.

(** ** Lists *)

Module ListFacts.

Lemma filter_keeps_all {A} (P : A → Prop) `{!∀ x, Decision (P x)} (l : list A) :
  (∀ x, x ∈ l → P x) → filter P l = l.
Proof.
  induction l as [|x l IH]; intros Hall; [done|].
  rewrite filter_cons_True by (apply Hall; left).
  f_equal. apply IH. intros y Hy. apply Hall. by right.
Qed.

Lemma filter_agree {A} (P Q : A → Prop) `{!∀ x, Decision (P x)} `{!∀ x, Decision (Q x)}
    (l : list A) :
  (∀ x, x ∈ l → P x ↔ Q x) → filter P l = filter Q l.
Proof.
  induction l as [|x l IH]; intros Hall; [done|].
  rewrite !filter_cons. rewrite IH by (intros y Hy; apply Hall; by right).
  destruct (decide (P x)) as [Hp|Hp], (decide (Q x)) as [Hq|Hq]; try done.
  - destruct Hq. apply Hall; [left|done].
  - destruct Hp. apply Hall; [left|done].
Qed.

Lemma filter_drops_all {A} (P : A → Prop) `{!∀ x, Decision (P x)} (l : list A) :
  (∀ x, x ∈ l → ¬ P x) → filter P l = [].
Proof.
  induction l as [|x l IH]; intros Hall; [done|].
  rewrite filter_cons_False by (apply Hall; left).
  apply IH. intros y Hy. apply Hall. by right.
Qed.

Lemma length_omap_le {A B} (f : A → option B) (l : list A) :
  length (omap f l) ≤ length l.
Proof. induction l as [|x l IH]; csimpl; [done|]. destruct (f x); simpl; lia. Qed.

Lemma length_omap_all {A B} (f : A → option B) (l : list A) :
  length (omap f l) = length l → Forall (λ x, is_Some (f x)) l.
Proof.
  induction l as [|x l IH]; csimpl; [constructor|].
  pose proof (length_omap_le f l). destruct (f x) as [y|] eqn:Hx; simpl; [|lia].
  intros Hlen. constructor; [by rewrite Hx|]. apply IH. lia.
Qed.

End ListFacts.

(** ** More on the selection of the hierarchy manager *)

Module SelectionFacts.
Import Hierarchy HierarchyFacts ListFacts.

(** *** [sync] *)

(** X1. A [sync] whose update reports nothing added, updated or removed
    returns at once: however many of them run, the manager is what it
    was, with its hierarchy, its selection, its pending set and its cache,
    whatever hierarchy the updates carry. *)
Theorem sync_idle (m : Manager) (idle : list HierarchyUpdate) :
  Forall (λ u, ¬ hasChanges u) idle → fold_left sync idle m = m.
Proof.
  induction 1 as [|u idle Hu _ IH]; simpl; [done|].
  by rewrite (sync_no_changes m u Hu).
Qed.

Lemma pendingOverride_sublist ns all : pendingOverride ns all `sublist_of` all.
Proof.
  unfold pendingOverride.
  pose proof (sublist_filter (λ r, transform_ref r ∈ ns) all) as Hsub.
  destruct (filter _ all) as [|x l]; [|done].
  destruct all as [|y all]; simpl; [done|].
  constructor. apply sublist_nil_l.
Qed.

(** X2. At a resynchronization with a pending set, each selection list
    is a sublist of the list of its kind in the new hierarchy: what is
    selected are candidates only, in the order of the hierarchy, none
    twice unless the hierarchy lists it twice. *)
Theorem sync_pending_candidates (m : Manager) (u : HierarchyUpdate) :
  nextSelection m ≠ ∅ → hasChanges u →
  let h := update_hierarchy u in
  let s := selection (sync m u) in
  sel_trajectories s `sublist_of` (OfTrajectory <$> trajectories h) ∧
  sel_models s `sublist_of` (OfModel <$> models h) ∧
  sel_structures s `sublist_of` (OfStructure <$> structures h).
Proof.
  intros Hp Hch h s. subst h s. rewrite (sync_changes m u Hch). cbn.
  rewrite !syncCurrent_pending by done.
  repeat split; apply pendingOverride_sublist.
Qed.

(** *** Carrying a selection forward *)

(** The map [hierarchy.refs] files every reference object under its own
    [cell.transform.ref]. *)
Definition keyed (h : StructureHierarchy) : Prop :=
  map_Forall (λ k r, transform_ref r = k) (refs h).



(** *** A hierarchy that lists what it files *)

(** A reference object is live in a hierarchy when [hierarchy.refs] holds
    it under its own reference. *)
Definition live (h : StructureHierarchy) (x : HierarchyRef) : Prop :=
  refs h !! transform_ref x = Some x.

(** [hierarchy.refs] is keyed by reference, and files every trajectory,
    model and structure that the three lists of the hierarchy hold. *)
Definition listed (h : StructureHierarchy) : Prop :=
  keyed h ∧
  Forall (live h) (OfTrajectory <$> trajectories h) ∧
  Forall (live h) (OfModel <$> models h) ∧
  Forall (live h) (OfStructure <$> structures h).

Lemma keyed_live h k r : keyed h → refs h !! k = Some r → live h r.
Proof. intros Hk Hr. unfold live. by rewrite (Hk k r Hr). Qed.

Lemma firstOrEmpty_subseteq {A} (all : list A) x : x ∈ firstOrEmpty all → x ∈ all.
Proof. destruct all as [|y all]; simpl; [done|]. intros ->%list_elem_of_singleton. left. Qed.

Lemma syncCurrent_live ns h current all :
  keyed h → Forall (live h) all → Forall (live h) (syncCurrent ns h current all).
Proof.
  intros Hk Hall. apply Forall_forall. intros x Hx.
  pose proof (proj1 (Forall_forall _ _) Hall) as Hin.
  destruct (decide (ns = ∅)) as [->|Hns].
  - rewrite syncCurrent_no_pending in Hx. unfold carryForward in Hx.
    destruct (omap _ current) as [|y kept] eqn:E.
    + by apply Hin, firstOrEmpty_subseteq.
    + rewrite <- E in Hx. apply list_elem_of_omap in Hx as (c & _ & Hc).
      by apply (keyed_live h (transform_ref c)).
  - rewrite syncCurrent_pending in Hx by done.
    apply Hin. by apply (sublist_subseteq _ _ (pendingOverride_sublist ns all)).
Qed.

(** X4. After a resynchronization against a hierarchy that lists what it
    files, every selected reference object is live: [hierarchy.refs] holds
    that very object under its reference, whatever was selected or
    pending before. *)
Theorem sync_selection_live (m : Manager) (u : HierarchyUpdate) :
  hasChanges u → listed (update_hierarchy u) →
  let m' := sync m u in
  Forall (live (hierarchy m'))
    (sel_trajectories (selection m') ++ sel_models (selection m')
     ++ sel_structures (selection m')).
Proof.
  intros Hch (Hk & Ht & Hm & Hs) m'. subst m'. rewrite (sync_changes m u Hch). cbn.
  rewrite !Forall_app. repeat split; by apply syncCurrent_live.
Qed.

Lemma omap_live h (l : list HierarchyRef) :
  Forall (live h) l → omap (λ c, refs h !! transform_ref c) l = l.
Proof.
  induction 1 as [|x l Hx _ IH]; csimpl; [done|]. unfold live in Hx.
  by rewrite Hx, IH.
Qed.

Lemma syncCurrent_fixed ns h current all :
  keyed h → Forall (live h) all →
  syncCurrent ∅ h (syncCurrent ns h current all) all = syncCurrent ns h current all.
Proof.
  intros Hk Hall. pose proof (syncCurrent_live ns h current all Hk Hall) as Hlive.
  rewrite (syncCurrent_no_pending h (syncCurrent ns h current all)).
  unfold carryForward. rewrite (omap_live h _ Hlive).
  destruct (syncCurrent ns h current all) as [|x l] eqn:E; [|done].
  destruct all as [|y all]; [done|]. exfalso.
  destruct (decide (ns = ∅)) as [->|Hns].
  - rewrite syncCurrent_no_pending in E. by apply (carryForward_nonempty h current (y :: all)).
  - rewrite syncCurrent_pending in E by done. by apply (pendingOverride_nonempty ns (y :: all)).
Qed.

(** X5. Against a hierarchy that lists what it files, a second [sync]
    with the same update changes nothing: the selection that a
    resynchronization leaves is carried forward as it is. *)
Theorem sync_idempotent (m : Manager) (u : HierarchyUpdate) :
  listed (update_hierarchy u) → sync (sync m u) u = sync m u.
Proof.
  intros (Hk & Ht & Hm & Hs).
  destruct (decide (hasChanges u)) as [Hch|Hno].
  - rewrite (sync_changes (sync m u) u Hch), (sync_changes m u Hch). cbn.
    by rewrite !syncCurrent_fixed.
  - by rewrite !(sync_no_changes _ u Hno).
Qed.

(** *** [updateCurrent] *)

(** What the three nested loops of [updateCurrent] walk over: the
    trajectories of the hierarchy, the models of each trajectory and the
    structures of each of these models. *)
Definition walkModels (ts : list TrajectoryRef) : list ModelRef :=
  ts ≫= trajectory_models.

Definition walkStructures (ms : list ModelRef) : list StructureRef :=
  ms ≫= model_structures.

Definition reached (h : StructureHierarchy) : Selection :=
  {| sel_trajectories := OfTrajectory <$> trajectories h;
     sel_models := OfModel <$> walkModels (trajectories h);
     sel_structures := OfStructure <$> walkStructures (walkModels (trajectories h)) |}.

(** The members of three lists whose reference is in a set. *)
Definition restrict (set : gset string) (s : Selection) : Selection :=
  {| sel_trajectories := filter (λ x, transform_ref x ∈ set) (sel_trajectories s);
     sel_models := filter (λ x, transform_ref x ∈ set) (sel_models s);
     sel_structures := filter (λ x, transform_ref x ∈ set) (sel_structures s) |}.

Definition selectionOf (p : Picked) : Selection :=
  {| sel_trajectories := p_trajectories p; sel_models := p_models p;
     sel_structures := p_structures p |}.

Definition append (s1 s2 : Selection) : Selection :=
  {| sel_trajectories := sel_trajectories s1 ++ sel_trajectories s2;
     sel_models := sel_models s1 ++ sel_models s2;
     sel_structures := sel_structures s1 ++ sel_structures s2 |}.

Lemma pickStructure_fold set acc ss :
  selectionOf (fold_left (pickStructure set) ss acc)
  = append (selectionOf acc)
      (restrict set {| sel_trajectories := []; sel_models := [];
                       sel_structures := OfStructure <$> ss |}).
Proof.
  revert acc. induction ss as [|s ss IH]; intros acc; simpl.
  - unfold append, selectionOf. simpl. by rewrite !app_nil_r.
  - rewrite IH. unfold pickStructure, append, restrict, selectionOf, push. simpl.
    rewrite filter_cons. simpl.
    case_bool_decide; case_decide; try done; simpl.
    by rewrite <- app_assoc.
Qed.

Lemma pickModel_fold set acc ms :
  selectionOf (fold_left (pickModel set) ms acc)
  = append (selectionOf acc)
      (restrict set {| sel_trajectories := []; sel_models := OfModel <$> ms;
                       sel_structures := OfStructure <$> walkStructures ms |}).
Proof.
  revert acc. induction ms as [|m ms IH]; intros acc; simpl.
  - unfold append, selectionOf. simpl. by rewrite !app_nil_r.
  - rewrite IH. unfold pickModel. rewrite pickStructure_fold.
    unfold append, restrict, selectionOf, push, walkStructures. simpl.
    rewrite filter_cons, fmap_app, filter_app. simpl.
    case_bool_decide; case_decide; try done; simpl;
      by rewrite <- ?app_assoc.
Qed.

Lemma pickTrajectory_fold set acc ts :
  selectionOf (fold_left (pickTrajectory set) ts acc)
  = append (selectionOf acc)
      (restrict set
         {| sel_trajectories := OfTrajectory <$> ts;
            sel_models := OfModel <$> walkModels ts;
            sel_structures := OfStructure <$> walkStructures (walkModels ts) |}).
Proof.
  revert acc. induction ts as [|t ts IH]; intros acc; simpl.
  - unfold append, selectionOf. simpl. by rewrite !app_nil_r.
  - rewrite IH. unfold pickTrajectory. rewrite pickModel_fold.
    unfold append, restrict, selectionOf, push, walkStructures, walkModels. simpl.
    rewrite filter_cons, bind_app, !fmap_app, !filter_app. simpl.
    case_bool_decide; case_decide; try done; simpl;
      by rewrite <- ?app_assoc.
Qed.

(** The set [updateCurrent] tests the references against. *)
Definition chosen (current : gset string) (rs : list HierarchyRef) (a : Action)
    : gset string :=
  match a with
  | add => current ∪ list_to_set (transform_ref <$> rs)
  | remove => current ∖ list_to_set (transform_ref <$> rs)
  end.

Lemma updateCurrent_eq m rs a :
  selection (updateCurrent m rs a)
  = restrict (chosen (seletionSet m).1 rs a) (reached (hierarchy m)).
Proof.
  unfold updateCurrent. destruct (seletionSet m) as [cur m1]. simpl.
  pose proof (pickTrajectory_fold (chosen cur rs a)
                {| p_trajectories := []; p_models := []; p_structures := [] |}
                (trajectories (hierarchy m))) as Hfold.
  unfold chosen in *. destruct a; exact Hfold.
Qed.

Lemma updateCurrent_fields m rs a :
  updateCurrent m rs a =
    {| hierarchy := hierarchy m;
       selection := restrict (chosen (seletionSet m).1 rs a) (reached (hierarchy m));
       nextSelection := nextSelection m;
       _currentSelectionSet := None |}.
Proof.
  rewrite <- updateCurrent_eq. pose proof (seletionSet_nextSelection m) as Hn.
  unfold updateCurrent. destruct (seletionSet m) as [cur m1]. simpl in *.
  by rewrite Hn.
Qed.

(** X6. [updateCurrent] rebuilds the three selection lists from the walk
    over [hierarchy.trajectories]: each list holds, in the order of the
    walk, the nodes whose reference is selected or given (for [add]), or
    selected and not given (for [remove]). So a model or structure that
    no trajectory of the hierarchy leads to is never selected, whatever
    [hierarchy.models] and [hierarchy.structures] list. The hierarchy and
    the pending set stay as they were. *)
Theorem updateCurrent_selection (m : Manager) (rs : list HierarchyRef) (a : Action) :
  cacheOk m →
  let m' := updateCurrent m rs a in
  selection m' = restrict (chosen (selectedRefs (selection m)) rs a) (reached (hierarchy m)) ∧
  hierarchy m' = hierarchy m ∧
  nextSelection m' = nextSelection m.
Proof.
  intros Hok m'. subst m'. rewrite updateCurrent_fields. simpl.
  by rewrite (seletionSet_eq m Hok).
Qed.

Lemma selectedRefs_restrict set s k :
  k ∈ selectedRefs (restrict set s) ↔ k ∈ set ∧ k ∈ selectedRefs s.
Proof.
  unfold selectedRefs, restrict. simpl.
  rewrite !elem_of_list_to_set, !list_elem_of_fmap. split.
  - intros (x & -> & Hx). rewrite !elem_of_app, !list_elem_of_filter in Hx.
    split; [naive_solver|]. exists x. rewrite !elem_of_app. naive_solver.
  - intros (Hk & x & -> & Hx). exists x. split; [done|].
    rewrite !elem_of_app, !list_elem_of_filter. rewrite !elem_of_app in Hx.
    naive_solver.
Qed.

(** Two sets that agree on the references of [s] pick the same members. *)
Lemma restrict_agree set1 set2 s :
  (∀ k, k ∈ selectedRefs s → k ∈ set1 ↔ k ∈ set2) →
  restrict set1 s = restrict set2 s.
Proof.
  intros Hagree. unfold restrict.
  assert (∀ x, x ∈ sel_trajectories s ++ sel_models s ++ sel_structures s →
               transform_ref x ∈ set1 ↔ transform_ref x ∈ set2) as Hx.
  { intros x Hin. apply Hagree. unfold selectedRefs.
    rewrite elem_of_list_to_set, list_elem_of_fmap. eauto. }
  f_equal; apply filter_agree; intros x Hin; apply Hx; rewrite !elem_of_app; auto.
Qed.

(** After [updateCurrent] the getter computes the set afresh. *)
Lemma seletionSet_updateCurrent m rs a :
  (seletionSet (updateCurrent m rs a)).1
  = selectedRefs (restrict (chosen (seletionSet m).1 rs a) (reached (hierarchy m))).
Proof.
  rewrite (seletionSet_eq _ (cacheOk_updateCurrent m rs a)).
  by rewrite updateCurrent_eq.
Qed.

(** One [updateCurrent] after another. *)
Lemma updateCurrent_twice m rs1 a1 rs2 a2 :
  updateCurrent (updateCurrent m rs1 a1) rs2 a2 =
    {| hierarchy := hierarchy m;
       selection :=
         restrict
           (chosen (selectedRefs (restrict (chosen (seletionSet m).1 rs1 a1)
                                    (reached (hierarchy m)))) rs2 a2)
           (reached (hierarchy m));
       nextSelection := nextSelection m;
       _currentSelectionSet := None |}.
Proof.
  rewrite (updateCurrent_fields (updateCurrent m rs1 a1)).
  rewrite seletionSet_updateCurrent.
  by rewrite (updateCurrent_fields m).
Qed.

(** X7. Doing an [updateCurrent] twice is doing it once: the second call
    leaves the manager as the first left it. *)
Theorem updateCurrent_idempotent (m : Manager) (rs : list HierarchyRef) (a : Action) :
  updateCurrent (updateCurrent m rs a) rs a = updateCurrent m rs a.
Proof.
  rewrite updateCurrent_twice, (updateCurrent_fields m). f_equal.
  apply restrict_agree. intros k Hk.
  destruct a; unfold chosen;
    rewrite ?elem_of_union, ?elem_of_difference, !selectedRefs_restrict;
    rewrite ?elem_of_union, ?elem_of_difference; tauto.
Qed.

(** X8. Removing references right after adding them leaves what removing
    them alone leaves, and adding them right after removing them what
    adding them alone leaves. *)
Theorem updateCurrent_add_remove (m : Manager) (rs : list HierarchyRef) :
  updateCurrent (updateCurrent m rs add) rs remove = updateCurrent m rs remove ∧
  updateCurrent (updateCurrent m rs remove) rs add = updateCurrent m rs add.
Proof.
  split; rewrite updateCurrent_twice, (updateCurrent_fields m); f_equal;
    apply restrict_agree; intros k Hk; unfold chosen;
    rewrite ?elem_of_union, ?elem_of_difference, !selectedRefs_restrict;
    rewrite ?elem_of_union, ?elem_of_difference;
    destruct (decide (k ∈ (list_to_set (transform_ref <$> rs) : gset string)));
    tauto.
Qed.

(** *** The cached selection set *)

(** What a user of the manager can do to its selection: a
    resynchronization, an [updateCurrent], a read of [seletionSet]. *)
Inductive Call :=
| Sync (u : HierarchyUpdate)
| UpdateCurrent (rs : list HierarchyRef) (a : Action)
| SeletionSet.

Definition call (m : Manager) (c : Call) : Manager :=
  match c with
  | Sync u => sync m u
  | UpdateCurrent rs a => updateCurrent m rs a
  | SeletionSet => (seletionSet m).2
  end.

(** X9. Whatever was called on a manager since its construction, the
    [seletionSet] getter returns the references of the three selection
    lists as they are now: the cache is never stale. *)
Theorem seletionSet_coherent (calls : list Call) :
  let m := fold_left call calls create in
  (seletionSet m).1 = selectedRefs (selection m).
Proof.
  intros m. subst m. apply seletionSet_eq.
  induction calls as [|c calls IH] using rev_ind; simpl.
  - apply cacheOk_create.
  - rewrite fold_left_app. simpl. destruct c; simpl.
    + by apply cacheOk_sync.
    + apply cacheOk_updateCurrent.
    + by apply cacheOk_seletionSet.
Qed.

(** *** A trajectory with two models *)

Definition structureA : StructureRef := {| structure_ref := "sA"; components := [] |}.
Definition modelA : ModelRef := {| model_ref := "mA"; model_structures := [structureA] |}.
Definition modelB : ModelRef := {| model_ref := "mB"; model_structures := [] |}.
Definition trajectoryA : TrajectoryRef :=
  {| trajectory_ref := "tA"; trajectory_models := [modelA; modelB] |}.

Definition loaded : StructureHierarchy :=
  {| trajectories := [trajectoryA]; models := [modelA; modelB]; structures := [structureA];
     refs := {[ "tA" := OfTrajectory trajectoryA; "mA" := OfModel modelA;
                "mB" := OfModel modelB; "sA" := OfStructure structureA ]} |}.

(** The update that reports the trajectory, and one that reports nothing. *)
Definition loadedUpdate : HierarchyUpdate :=
  {| update_hierarchy := loaded; added := [OfTrajectory trajectoryA];
     updated := []; removed := [] |}.

Definition nothingNew : HierarchyUpdate :=
  {| update_hierarchy := loaded; added := []; updated := []; removed := [] |}.

(** A manager in which [createModels] marked the second model. *)
Definition marked : Manager :=
  {| hierarchy := emptyHierarchy;
     selection := {| sel_trajectories := []; sel_models := []; sel_structures := [] |};
     nextSelection := {[ "mB" ]};
     _currentSelectionSet := None |}.

Lemma loaded_keyed : keyed loaded.
Proof. apply (bool_decide_unpack _). vm_compute. exact I. Qed.

Lemma loaded_listed : listed loaded.
Proof.
  split; [exact loaded_keyed|]. unfold live.
  repeat split; repeat constructor.
Qed.

Lemma nothingNew_idle : ¬ hasChanges nothingNew.
Proof. intros [H|[H|H]]; by apply H. Qed.

Lemma loadedUpdate_changes : hasChanges loadedUpdate.
Proof. left. discriminate. Qed.

Lemma marked_pending : nextSelection marked ≠ ∅.
Proof. cbn [marked nextSelection]. set_solver. Qed.

Lemma sync_idle_witness :
  fold_left sync [nothingNew; nothingNew] marked = marked.
Proof.
  apply (sync_idle marked [nothingNew; nothingNew]).
  repeat constructor; exact nothingNew_idle.
Defined.

Lemma sync_pending_candidates_witness :
  sel_models (selection (sync marked loadedUpdate)) `sublist_of` [OfModel modelA; OfModel modelB].
Proof.
  destruct (sync_pending_candidates marked loadedUpdate marked_pending loadedUpdate_changes)
    as (_ & Hmodels & _).
  exact Hmodels.
Defined.


Lemma sync_selection_live_witness :
  Forall (live loaded)
    (sel_trajectories (selection (sync marked loadedUpdate))
     ++ sel_models (selection (sync marked loadedUpdate))
     ++ sel_structures (selection (sync marked loadedUpdate))).
Proof.
  exact (sync_selection_live marked loadedUpdate loadedUpdate_changes loaded_listed).
Defined.

Lemma sync_idempotent_witness :
  sync (sync marked loadedUpdate) loadedUpdate = sync marked loadedUpdate.
Proof. exact (sync_idempotent marked loadedUpdate loaded_listed). Defined.

Lemma updateCurrent_selection_witness :
  sel_models (selection (updateCurrent (sync create loadedUpdate) [OfModel modelB] add))
  = [OfModel modelA; OfModel modelB].
Proof.
  destruct (updateCurrent_selection (sync create loadedUpdate) [OfModel modelB] add
              (cacheOk_sync create loadedUpdate cacheOk_create)) as (Hsel & _).
  rewrite Hsel. vm_compute. reflexivity.
Defined.

End SelectionFacts.

(** ** More on [getComponentGroups] *)

Module GroupingFacts.
Import Hierarchy HierarchyFacts ListFacts.

(** With two structures or more the groups are those of the components
    taken together. *)
Lemma getComponentGroups_many s1 s2 rest :
  getComponentGroups (s1 :: s2 :: rest) = groupsByKey ((s1 :: s2 :: rest) ≫= components).
Proof.
  unfold getComponentGroups. rewrite fold_components.
  by destruct (grouped_fold ((s1 :: s2 :: rest) ≫= components) [] _ grouped_nil).
Qed.

(** The components that have a key to be grouped under. *)
Definition keyedComponents (cs : list StructureComponentRef) : list StructureComponentRef :=
  filter (λ c, is_Some (groupKey c)) cs.

Lemma join_insert {A} (x : A) (k : string) (g : string → list A) (ks : list string) :
  NoDup ks → k ∈ ks →
  mjoin ((λ k', if decide (k' = k) then x :: g k' else g k') <$> ks)
  ≡ₚ x :: mjoin (g <$> ks).
Proof.
  induction ks as [|k0 ks IH]; intros Hnd Hin; [by apply elem_of_nil in Hin|].
  apply NoDup_cons in Hnd as [Hk0 Hnd]. csimpl.
  destruct (decide (k0 = k)) as [->|Hne].
  - simpl. f_equiv. f_equiv.
    assert ((λ k', if decide (k' = k) then x :: g k' else g k') <$> ks = g <$> ks) as ->; [|done].
    apply list_fmap_ext. intros i k' Hk'.
    destruct (decide (k' = k)) as [->|]; [|done].
    destruct Hk0. by eapply list_elem_of_lookup_2.
  - apply elem_of_cons in Hin as [->|Hin]; [done|].
    rewrite (IH Hnd Hin). by rewrite Permutation_middle.
Qed.

Lemma join_groups (f : StructureComponentRef → option string) cs ks :
  NoDup ks → (∀ c k, c ∈ cs → f c = Some k → k ∈ ks) →
  mjoin ((λ k, filter (λ c, f c = Some k) cs) <$> ks)
  ≡ₚ filter (λ c, is_Some (f c)) cs.
Proof.
  intros Hnd. induction cs as [|c cs IH]; intros Hks.
  - clear. induction ks as [|k ks IH]; csimpl; [done|]. exact IH.
  - rewrite filter_cons. destruct (f c) as [k|] eqn:Hc.
    + destruct (decide (is_Some (Some k))) as [_|Hno]; [|by destruct Hno; eauto].
      rewrite <- IH by (intros c' k' Hc'; apply Hks; by right).
      rewrite <- (join_insert c k (λ k', filter (λ c, f c = Some k') cs) ks Hnd)
        by (apply (Hks c k); [left|done]).
      assert ((λ k0, filter (λ c0, f c0 = Some k0) (c :: cs)) <$> ks
              = (λ k', if decide (k' = k) then c :: filter (λ c0, f c0 = Some k') cs
                       else filter (λ c0, f c0 = Some k') cs) <$> ks) as ->; [|done].
      apply list_fmap_ext. intros i k' _. rewrite filter_cons.
      destruct (decide (k' = k)) as [->|Hne].
      * by rewrite decide_True.
      * rewrite decide_False; [done|]. rewrite Hc. congruence.
    + destruct (decide (is_Some None)) as [[? ?]|_]; [done|].
      rewrite <- IH by (intros c' k' Hc'; apply Hks; by right).
      assert ((λ k0, filter (λ c0, f c0 = Some k0) (c :: cs)) <$> ks
              = (λ k0, filter (λ c0, f c0 = Some k0) cs) <$> ks) as ->; [|done].
      apply list_fmap_ext. intros i k' _. rewrite filter_cons.
      rewrite decide_False; [done|]. rewrite Hc. congruence.
Qed.

(** X10. With two structures or more, the groups split the components that
    have a key: put end to end they are these components, each once; no
    group is empty; the components of a group have one key, and no two
    groups have the same. *)
Theorem getComponentGroups_partition (s1 s2 : StructureRef) (rest : list StructureRef) :
  let cs := (s1 :: s2 :: rest) ≫= components in
  let gs := getComponentGroups (s1 :: s2 :: rest) in
  mjoin gs ≡ₚ keyedComponents cs ∧
  Forall (λ g, g ≠ []) gs ∧
  ∃ ks, NoDup ks ∧ Forall2 (λ k g, Forall (λ c, groupKey c = Some k) g) ks gs.
Proof.
  intros cs gs. subst gs. rewrite getComponentGroups_many. fold cs.
  unfold groupsByKey. split; [|split].
  - apply join_groups; [apply NoDup_firstOccurrences|].
    intros c k Hc Hk. apply elem_of_firstOccurrences, list_elem_of_omap. eauto.
  - apply Forall_fmap, Forall_forall. intros k Hk. simpl.
    apply elem_of_firstOccurrences, list_elem_of_omap in Hk as (c & Hc & Hk).
    intros Hnil.
    assert (c ∈ filter (λ c, groupKey c = Some k) cs) as Hin
      by (by apply list_elem_of_filter).
    rewrite Hnil in Hin. by apply elem_of_nil in Hin.
  - exists (firstOccurrences (omap groupKey cs)). split; [apply NoDup_firstOccurrences|].
    apply Forall2_fmap_r, Forall_Forall2_diag, Forall_forall. intros k _.
    apply Forall_forall. by intros c [Hk _]%list_elem_of_filter.
Qed.

(** *** One structure against several *)

Lemma length_firstOccurrences l : length (firstOccurrences l) ≤ length l.
Proof.
  induction l as [|x l IH]; simpl; [done|].
  pose proof (length_filter (λ y, y ≠ x) (firstOccurrences l)). lia.
Qed.

Lemma firstOccurrences_NoDup_iff l :
  length (firstOccurrences l) = length l ↔ NoDup l.
Proof.
  induction l as [|x l IH]; simpl.
  - split; [constructor|done].
  - pose proof (length_filter (λ y, y ≠ x) (firstOccurrences l)) as Hf.
    pose proof (length_firstOccurrences l) as Hl.
    rewrite NoDup_cons. split.
    + intros Hlen.
      assert (length (filter (λ y, y ≠ x) (firstOccurrences l))
              = length (firstOccurrences l)) as Hsame by lia.
      split; [|apply IH; lia].
      intros Hx. apply (proj2 (elem_of_firstOccurrences l x)) in Hx.
      assert (filter (λ y, y ≠ x) (firstOccurrences l) = firstOccurrences l) as Heq.
      { clear -Hsame. induction (firstOccurrences l) as [|y k IHk]; [done|].
        rewrite filter_cons in *. pose proof (length_filter (λ y, y ≠ x) k).
        destruct (decide (y ≠ x)); simpl in *; [f_equal; apply IHk; lia|lia]. }
      rewrite <- Heq in Hx. apply list_elem_of_filter in Hx as [Hne _]. done.
    + intros [Hx Hnd]. apply IH in Hnd as Hlen. f_equal. rewrite <- Hlen. f_equal.
      apply filter_keeps_all.
      intros y Hy ->. by apply (proj1 (elem_of_firstOccurrences l x)) in Hy.
Qed.

Lemma firstOccurrences_NoDup l : NoDup l → firstOccurrences l = l.
Proof.
  induction 1 as [|x l Hx Hnd IH]; simpl; [done|]. rewrite IH. f_equal.
  apply filter_keeps_all. by intros y Hy ->.
Qed.

(** Components that all have a key, no two the same, are grouped one by
    one. *)
Lemma groups_singletons pre cs :
  Forall (λ c, is_Some (groupKey c)) cs →
  NoDup (omap groupKey (pre ++ cs)) →
  (λ k, filter (λ c, groupKey c = Some k) (pre ++ cs)) <$> omap groupKey cs
  = (λ c, [c]) <$> cs.
Proof.
  revert pre. induction cs as [|c cs IH]; intros pre Hall Hnd; [done|].
  apply Forall_cons in Hall as [[k Hk] Hall]. csimpl. rewrite Hk. csimpl. f_equal.
  - rewrite omap_app in Hnd. csimpl in Hnd. rewrite Hk in Hnd.
    apply NoDup_app in Hnd as (_ & Hpre & [Hcs _]%NoDup_cons).
    rewrite filter_app, filter_cons_True by done.
    rewrite (filter_drops_all _ pre), (filter_drops_all _ cs); [done|..].
    + intros y Hy Hyk. apply Hcs, list_elem_of_omap. eauto.
    + intros y Hy Hyk. apply (Hpre k); [|left].
      apply list_elem_of_omap. eauto.
  - replace (pre ++ c :: cs) with ((pre ++ [c]) ++ cs) in * by (by rewrite <- app_assoc).
    by apply IH.
Qed.

Lemma keys_of_keyed cs :
  Forall (λ c, is_Some (groupKey c)) cs → key <$> cs = Some <$> omap groupKey cs.
Proof.
  induction 1 as [|c cs [k Hk] _ IH]; csimpl; [done|]. rewrite Hk. csimpl.
  rewrite <- IH. f_equal. unfold groupKey in Hk.
  destruct (key c) as [k'|]; [|done]. by case_bool_decide; simplify_eq.
Qed.

(** X11. One structure is not grouped as several are: its components come
    back one by one, keyed or not. Beside a structure without components,
    they are grouped by key instead, and the two results are the same
    exactly when every component has a non-empty key and no two components
    have the same. *)
Theorem getComponentGroups_one_or_several (s : StructureRef) (r : Ref) :
  let e := {| structure_ref := r; components := [] |} in
  getComponentGroups [s; e] = getComponentGroups [s] ↔
  Forall (λ c, ∃ k, key c = Some k ∧ k ≠ "") (components s) ∧
  NoDup (key <$> components s).
Proof.
  intros e. rewrite getComponentGroups_many.
  assert ([s; e] ≫= components = components s) as -> by (csimpl; by rewrite !app_nil_r).
  assert (getComponentGroups [s] = (λ c, [c]) <$> components s) as -> by done.
  assert (Forall (λ c, ∃ k, key c = Some k ∧ k ≠ "") (components s)
          ↔ Forall (λ c, is_Some (groupKey c)) (components s)) as ->.
  { apply Forall_proper; [|done]. intros c. unfold groupKey.
    destruct (key c) as [k|]; [|split; [by intros (? & ? & _)|by intros [? ?]]].
    case_bool_decide as Hk.
    - split; [intros (k' & [= <-] & Hne); done|by intros [? ?]].
    - split; [eauto|]. intros _. eauto. }
  set (cs := components s).
  assert (Forall (λ c, is_Some (groupKey c)) cs →
          (NoDup (key <$> cs) ↔ NoDup (omap groupKey cs))) as Hkeys.
  { intros Hall. rewrite (keys_of_keyed cs Hall). split.
    - apply NoDup_fmap. by intros ?? [= ->].
    - intros Hnd. apply NoDup_fmap_2; [|done]. by intros ?? [= ->]. }
  unfold groupsByKey. split.
  - intros Heq. apply (f_equal length) in Heq. rewrite !length_fmap in Heq.
    pose proof (length_firstOccurrences (omap groupKey cs)).
    pose proof (length_omap_le groupKey cs).
    assert (Forall (λ c, is_Some (groupKey c)) cs) as Hall
      by (apply length_omap_all; lia).
    split; [done|]. apply (Hkeys Hall), firstOccurrences_NoDup_iff. lia.
  - intros [Hall Hnd]. apply (Hkeys Hall) in Hnd.
    rewrite (firstOccurrences_NoDup _ Hnd).
    by apply (groups_singletons [] cs).
Qed.

End GroupingFacts.

(** ** The example's transformers *)

Module ShapesFacts.
Import Transformer Shapes.

(** X12. [CaclArea] throws exactly on the objects whose class is not
    among the [from] it declares, and what it throws is
    ['Unknown object type.']; this holds for [apply] and for [update].
    What [apply] returns is an [Area], as declared. *)
Theorem CaclArea_fails_outside_from (obj : StateObject) :
  let d := definition CaclArea in
  (CaclArea_apply obj = inl UnknownObjectType ↔ classOf obj ∉ from d) ∧
  (∀ b, CaclArea_update obj b = inl UnknownObjectType ↔ classOf obj ∉ from d) ∧
  (classOf obj ∈ from d →
     (∃ o, CaclArea_apply obj = inr o ∧ classOf o ∈ to d) ∧
     ∀ b, ∃ b', CaclArea_update obj b = inr (Updated, b')).
Proof.
  intros d. subst d. simpl.
  destruct obj as [props|props data|props data|props data]; simpl;
    (split; [|split]);
    try (split; [intros ?; set_solver|intros ?; done]);
    try (intros b; split; [intros ?; set_solver|intros ?; done]);
    try (intros Hin; exfalso; set_solver);
    try (intros _; split; [eexists; split; [done|set_solver]|intros b; eauto]);
    try (split; [done|intros Hno; exfalso; apply Hno; set_solver]);
    try (intros b; split; [done|intros Hno; exfalso; apply Hno; set_solver]).
Qed.

(** The object a cell holds after [update] changed it in place. *)
Definition squareOf (b : ObjProps * SquareData) : StateObject := NewSquare b.1 b.2.
Definition circleOf (b : ObjProps * CircleData) : StateObject := NewCircle b.1 b.2.
Definition areaOf (b : ObjProps * AreaData) : StateObject := NewArea b.1 b.2.

(** X13. An update gives what a fresh [apply] gives: [CreateSquare] and
    [CreateCircle] report [Updated] and leave the object that [apply]
    builds from the new parameters, whatever the object was; [CaclArea]
    reports [Updated] and leaves the data that [apply] computes, under
    the label the object had. *)
Theorem update_agrees_with_apply :
  (∀ b p, CreateSquare_update b p = (Updated, (CreateSquare_update b p).2) ∧
          squareOf (CreateSquare_update b p).2 = CreateSquare_apply p) ∧
  (∀ b p, CreateCircle_update b p = (Updated, (CreateCircle_update b p).2) ∧
          circleOf (CreateCircle_update b p).2 = CreateCircle_apply p) ∧
  (∀ obj b o,
     CaclArea_apply obj = inr o →
     ∃ data, CaclArea_update obj b = inr (Updated, (b.1, data)) ∧
             o = NewArea {| label := Text "Area" |} data).
Proof.
  split; [|split].
  - intros b [a]. done.
  - intros b [r]. done.
  - intros obj b o. destruct obj; simpl; intros [= <-]; eauto.
Qed.

(** *** The sign of an area *)

(** A number that is not below zero: a zero, a positive number, positive
    infinity or [NaN]. *)
Definition notNegative (f : spec_float) : Prop :=
  match f with
  | S754_zero _ | S754_nan => True
  | S754_infinity s | S754_finite s _ _ => s = false
  end.

Lemma binary_round_aux_notNegative prec emax m e l :
  notNegative (binary_round_aux prec emax false m e l).
Proof.
  unfold binary_round_aux.
  destruct (shr_fexp prec emax m e l) as [mrs' e'].
  destruct (shr_fexp prec emax _ e' loc_Exact) as [mrs'' e''].
  destruct (shr_m mrs''); simpl; [done| |done].
  by destruct (_ <=? _)%Z.
Qed.

Lemma SFmul_self_notNegative prec emax x : notNegative (SFmul prec emax x x).
Proof.
  destruct x as [s|s| |s m e]; simpl; try done.
  - by destruct s.
  - replace (xorb s s) with false by (by destruct s).
    apply binary_round_aux_notNegative.
Qed.

Lemma SFmul_notNegative prec emax x y :
  notNegative x → notNegative y → notNegative (SFmul prec emax x y).
Proof.
  destruct x as [s|s| |s m e], y as [s'|s'| |s' m' e']; simpl; try done;
    intros; subst; try done.
  apply binary_round_aux_notNegative.
Qed.

Lemma notNegative_ltb x : notNegative x → SFltb x (S754_zero false) = false.
Proof. destruct x as [s|s| |s m e]; simpl; try done; by intros ->. Qed.

(** X14. The area that [CaclArea] computes is never below zero: for a
    square of any side and a circle of any radius, negative, infinite or
    [NaN], [volume < 0] is false, after [apply] and after [update]. *)
Theorem area_never_negative (obj : StateObject) :
  (∀ o, CaclArea_apply obj = inr o →
     ∃ props data, o = NewArea props data ∧ (volume data <? 0)%float = false) ∧
  (∀ b res b', CaclArea_update obj b = inr (res, b') →
     (volume b'.2 <? 0)%float = false).
Proof.
  assert (∀ x, (x * x <? 0)%float = false) as Hsquare.
  { intros x. rewrite ltb_spec, mul_spec.
    apply notNegative_ltb, SFmul_self_notNegative. }
  assert (∀ x, (x * x * PI <? 0)%float = false) as Hcircle.
  { intros x. rewrite ltb_spec, !mul_spec.
    apply notNegative_ltb, SFmul_notNegative; [apply SFmul_self_notNegative|done]. }
  split.
  - intros o. destruct obj as [props|props d|props d|props d]; simpl; intros [= <-];
      eexists _, _; (split; [done|]); simpl; [apply Hsquare|apply Hcircle].
  - intros b res b'. destruct obj as [props|props d|props d|props d]; simpl;
      intros [= <- <-]; simpl; [apply Hsquare|apply Hcircle].
Qed.

End ShapesFacts.

(** ** Space group cells *)

Module SpacegroupFacts.
Import Spacegroup.
Local Open Scope Z_scope.

(** *** [isZero] *)

(** The only number that [=== 1] holds for is 1. *)
Lemma eqb_one (x : float) : (x =? 1)%float = true ↔ x = 1%float.
Proof.
  split; [|by intros ->].
  rewrite FloatAxioms.eqb_spec. intros Heq. apply Prim2SF_inj.
  change (Prim2SF 1) with (S754_finite false 4503599627370496 (-52)) in *.
  unfold SFeqb, SFcompare in Heq.
  destruct (Prim2SF x) as [s|s| |s m e]; [done|by destruct s|done|].
  destruct s; [done|].
  destruct (e ?= -52) eqn:He; try done. apply Z.compare_eq in He.
  rewrite Pos.compare_cont_spec in Heq. simpl in Heq.
  destruct (m ?= 4503599627370496)%positive eqn:Hm; try done.
  apply Pos.compare_eq in Hm. by subst.
Qed.

(** X15. [isZero] holds exactly when [size[0]] and [size[1]] are 1: it
    reads neither [size[2]], nor the number of the cell, nor its angles,
    so a cell that passes still passes with any third size, number and
    angles. *)
Theorem isZero_reads_two_sizes {Mat4 : Type} (cell : SpacegroupCell Mat4) :
  (isZero cell = true ↔ v0 (size cell) = 1%float ∧ v1 (size cell) = 1%float) ∧
  ∀ (n z : float) (angles : Vec3),
    isZero cell = true →
    isZero {| number := n;
              size := {| v0 := v0 (size cell); v1 := v1 (size cell); v2 := z |};
              anglesInRadians := angles;
              toFractional := toFractional cell;
              fromFractional := fromFractional cell;
              fractionalBasis := fractionalBasis cell |} = true.
Proof.
  split.
  - unfold isZero. rewrite !andb_true_iff, !eqb_one. tauto.
  - intros n z angles. unfold isZero. simpl. done.
Qed.

End SpacegroupFacts.
